(** * Julia to WebAssembly text generator (libjulia/backends/webassembly/WebAssembly.cpp)

    A shallow embedding of the [Generator] visitor and of
    [julia::WebAssembly::assemble], followed by the properties of the
    translation.

    The generator writes through one [IndentedWriter] member, [output].
    The writer is represented by the ordered log of the calls made on it;
    [output.format()] is a function of that log and is taken as a section
    variable where the final text is needed.  A failed [solAssert] throws
    and the generator object, with everything written so far, is dropped:
    failure outcomes therefore carry no writer.  Reading a [std::vector]
    past its end and dereferencing an empty [shared_ptr] are undefined in
    C++; they are kept apart from assertion failures as [Undefined]. *)

From Stdlib Require Import String Ascii List ZArith Bool Arith Lia.
Import ListNotations.
Open Scope string_scope.
Open Scope list_scope.

(** ** Outcomes *)

Inductive fault : Type :=
| OutOfRange        (* operator[] of a vector at an index >= size() *)
| NullDereference.  (* operator* of an empty shared_ptr *)

Inductive outcome (A : Type) : Type :=
| Ok (a : A)
| AssertionFailed (description : string)
| Undefined (why : fault).

Arguments Ok {A} a.
Arguments AssertionFailed {A} description.
Arguments Undefined {A} why.

Definition outcome_bind {A B} (m : outcome A) (k : A -> outcome B) : outcome B :=
  match m with
  | Ok a => k a
  | AssertionFailed d => AssertionFailed d
  | Undefined f => Undefined f
  end.

Definition outcome_map {A B} (f : A -> B) (m : outcome A) : outcome B :=
  outcome_bind m (fun a => Ok (f a)).

(** ** The syntax tree (libsolidity/inlineasm/AsmData.h)

    Source locations are left out: the generator never reads them. *)

Definition Type_ := string.

Record TypedName : Type := mkTypedName { tn_name : string; tn_type : Type_ }.
Definition TypedNameList := list TypedName.

Module LiteralKind.
Inductive t : Type := Number | Boolean | String.
End LiteralKind.

Record Literal : Type := mkLiteral {
  lit_kind : LiteralKind.t;
  lit_value : string;
  lit_type : Type_
}.

Record Identifier : Type := mkIdentifier { id_name : string }.

(** [Statement] is the boost::variant of all node kinds.  A [shared_ptr]
    field is an [option]: [None] is the empty pointer.  The induction
    principle that reaches into the nested lists is [Statement_mutind]. *)
#[local] Unset Elimination Schemes.
Inductive Statement : Type :=
| Instruction_
| Literal_ (literal : Literal)
| Label_ (name : string)
| StackAssignment_ (variableName : Identifier)
| Identifier_ (identifier : Identifier)
| Assignment_ (variableName : Identifier) (value : option Statement)
| FunctionCall_ (functionName : Identifier) (arguments : list Statement)
| FunctionalInstruction_ (arguments : list Statement)
| VariableDeclaration_ (variables : TypedNameList) (value : option Statement)
| FunctionDefinition_ (name : string) (arguments returns : TypedNameList) (body : Block)
| Switch_ (expression : option Statement) (cases : list Case)
| Block_ (block : Block)
with Block : Type :=
| mkBlock (statements : list Statement)
with Case : Type :=
| mkCase (value : option Literal) (body : Block).
#[local] Set Elimination Schemes.

Definition statements (b : Block) : list Statement :=
  match b with mkBlock ss => ss end.
Definition case_value (c : Case) : option Literal :=
  match c with mkCase v _ => v end.
Definition case_body (c : Case) : Block :=
  match c with mkCase _ b => b end.

(** ** The writer, as the log of the calls made on it *)

Inductive WriterCall : Type :=
| Add (str : string)
| AddLine (line : string)
| NewLine
| Indent
| Unindent.

Definition IndentedWriter := list WriterCall.

(** A freshly constructed writer. *)
Definition IndentedWriter_new : IndentedWriter := [].

(** ** The generator monad: the writer threaded through fallible steps *)

Definition Gen (A : Type) : Type := IndentedWriter -> outcome (A * IndentedWriter).

Definition ret {A} (a : A) : Gen A := fun w => Ok (a, w).

Definition bind {A B} (m : Gen A) (k : A -> Gen B) : Gen B :=
  fun w =>
    match m w with
    | Ok (a, w') => k a w'
    | AssertionFailed d => AssertionFailed d
    | Undefined f => Undefined f
    end.

Declare Scope gen_scope.
Delimit Scope gen_scope with gen.
Notation "x <- m ;; k" := (bind m (fun x => k))
  (at level 61, m at next level, right associativity) : gen_scope.
Notation "m ;; k" := (bind m (fun _ => k))
  (at level 61, right associativity) : gen_scope.
Open Scope gen_scope.

Definition lift {A} (o : outcome A) : Gen A :=
  fun w => outcome_map (fun a => (a, w)) o.

Definition call (c : WriterCall) : Gen unit := fun w => Ok (tt, w ++ [c]).

Definition output_add (s : string) : Gen unit := call (Add s).
Definition output_addLine (s : string) : Gen unit := call (AddLine s).
Definition output_newLine : Gen unit := call NewLine.
Definition output_indent : Gen unit := call Indent.
Definition output_unindent : Gen unit := call Unindent.

(** [solAssert(cond, description)] throws when [cond] is false. *)
Definition solAssert (cond : bool) (description : string) : Gen unit :=
  fun w => if cond then Ok (tt, w) else AssertionFailed description.

Definition undefined {A} (f : fault) : Gen A := fun _ => Undefined f.

(** [v[i]] on a [std::vector]: no bounds check in the source. *)
Definition vector_at {A} (v : list A) (i : nat) : outcome A :=
  match nth_error v i with
  | Some x => Ok x
  | None => Undefined OutOfRange
  end.

(** [*p] on a [shared_ptr]. *)
Definition deref {A} (p : option A) : outcome A :=
  match p with
  | Some x => Ok x
  | None => Undefined NullDereference
  end.

(** A [shared_ptr] in a boolean context. *)
Definition nonnull {A} (p : option A) : bool :=
  match p with Some _ => true | None => false end.

(** ** Generator::convertType *)

Definition supportedTypes : list string :=
  ["bool"; "u8"; "s8"; "u32"; "s32"; "u64"; "s64"].

(** [std::set::count]. *)
Definition set_count (s : list string) (x : string) : nat :=
  if existsb (String.eqb x) s then 1 else 0.

Definition convertType (type : Type_) : outcome string :=
  if String.eqb type "" then AssertionFailed "Only Julia input is supported."
  else if (set_count supportedTypes type =? 0)%nat
       then AssertionFailed ("Type (" ++ type ++ ") not supported yet.")
       else Ok "i64".

(** ** Generator::operator()(Literal), operator()(Identifier) *)

Definition visitLiteral (_literal : Literal) : Gen unit :=
  match lit_kind _literal with
  | LiteralKind.Number =>
      ty <- lift (convertType (lit_type _literal));;
      output_add ("(" ++ ty ++ ".const " ++ lit_value _literal ++ ")")
  | LiteralKind.Boolean =>
      ty <- lift (convertType (lit_type _literal));;
      output_add ("(" ++ ty ++ ".const "
                  ++ (if String.eqb (lit_value _literal) "true" then "1" else "0")
                  ++ ")")
  | LiteralKind.String =>
      solAssert false "Non-number literals not supported."
  end.

Definition visitIdentifier (_identifier : Identifier) : Gen unit :=
  output_add ("(get_local $" ++ id_name _identifier ++ ")").

(** ** Loops of Generator::operator()(FunctionDefinition) *)

Fixpoint paramLoop (arguments : TypedNameList) : Gen unit :=
  match arguments with
  | [] => ret tt
  | argument :: rest =>
      ty <- lift (convertType (tn_type argument));;
      output_addLine ("(param $" ++ tn_name argument ++ " " ++ ty ++ ")");;
      paramLoop rest
  end.

(** The loop over [_funDef.returns]; [returnName] is the local it assigns. *)
Fixpoint returnLoop (returns : TypedNameList) (returnName : string) : Gen string :=
  match returns with
  | [] => ret returnName
  | returnArgument :: rest =>
      ty <- lift (convertType (tn_type returnArgument));;
      output_addLine ("(result " ++ ty ++ ")");;
      ty' <- lift (convertType (tn_type returnArgument));;
      output_addLine ("(local $" ++ tn_name returnArgument ++ " " ++ ty' ++ ")");;
      returnLoop rest (tn_name returnArgument)
  end.

(** ** Unsigned arithmetic of the Switch handler *)

(** [size() - 1] in [size_t] (64 bits): 0 wraps to 2^64 - 1. *)
Definition size_minus_one {A} (v : list A) : Z :=
  ((Z.of_nat (length v) - 1) mod 2 ^ 64)%Z.

(** [!n] on an unsigned, and a [bool] used as an index. *)
Definition lnot (n : nat) : bool := (n =? 0)%nat.
Definition index_of_bool (b : bool) : nat := if b then 1 else 0.

(** [!!defaultcase] as it is used to index [cases]. *)
Definition notnot (defaultcase : nat) : nat :=
  index_of_bool (negb (lnot defaultcase)).

(** [std::for_each] and the range-based [for] over a vector. *)
Definition for_each {A} (f : A -> Gen unit) : list A -> Gen unit :=
  fix each (l : list A) : Gen unit :=
    match l with
    | [] => ret tt
    | x :: rest => f x;; each rest
    end.

(** The text wrapped around the statements by operator()(Block). *)
Definition blockConstruct (inner : Gen unit) : Gen unit :=
  output_add "(block ";;
  output_indent;;
  inner;;
  output_unindent;;
  output_add ")".

(** ** Generator::resolveBuiltinFunction

    [visitor] stands for [boost::apply_visitor] with this generator.  The
    four branches of the source have the same body and differ in the
    opening text only; [builtin] is that body.  [arguments[0]] and
    [arguments[1]] are read after the assertion on the size, so the
    out-of-range read of the last line cannot be reached. *)
Definition resolveBuiltinFunction (visitor : Statement -> Gen unit)
    (functionName : Identifier) (arguments : list Statement) : Gen bool :=
  let builtin (opening : string) : Gen bool :=
    output_add opening;;
    output_indent;;
    solAssert (length arguments =? 2)%nat "";;
    match arguments with
    | [argument0; argument1] =>
        visitor argument0;;
        output_newLine;;
        visitor argument1;;
        output_unindent;;
        output_add ")";;
        ret true
    | _ => undefined OutOfRange
    end in
  if id_name functionName =? "add64" then builtin "(i64.add "
  else if id_name functionName =? "sub64" then builtin "(i64.sub "
  else if id_name functionName =? "mul64" then builtin "(i64.mul "
  else if id_name functionName =? "gt64" then builtin "(i64.gt_u "
  else ret false.

(** ** The visitor

    [visit] is [boost::apply_visitor] with this generator; [visitStatements]
    is the private member of that name; [visitCaseBody c] is
    the Block overload of the call operator applied to [c.body].  In the
    Switch handler [bodies] holds, position by position, the lowering of
    [cases[i].body], so that lowering [_switch.cases[i].body] is running
    the [i]-th entry, and an index past the end is the same out-of-range
    read as on [cases]. *)
Fixpoint visit (s : Statement) {struct s} : Gen unit :=
  match s with
  | Instruction_ =>
      solAssert false "Instructions are not supported in Julia."
  | FunctionalInstruction_ _ =>
      solAssert false "Instructions are not supported in Julia."
  | StackAssignment_ _ =>
      solAssert false "Assignment from stack is not supported in Julia."
  | Label_ _ =>
      solAssert false "Labels are not supported in Julia."
  | Literal_ _literal => visitLiteral _literal
  | Identifier_ _identifier => visitIdentifier _identifier
  | VariableDeclaration_ variables value =>
      solAssert (length variables =? 1)%nat "Tuples not supported yet.";;
      front <- lift (vector_at variables 0);;
      ty <- lift (convertType (tn_type front));;
      output_addLine ("(local $" ++ tn_name front ++ " " ++ ty ++ ")");;
      output_addLine ("(set_local $" ++ tn_name front ++ " ");;
      output_indent;;
      match value with
      | Some v => visit v
      | None => undefined NullDereference
      end;;
      output_unindent;;
      output_add ")";;
      output_newLine
  | Assignment_ variableName value =>
      output_addLine ("(set_local $" ++ id_name variableName ++ " ");;
      output_indent;;
      match value with
      | Some v => visit v
      | None => undefined NullDereference
      end;;
      output_unindent;;
      output_add ")";;
      output_newLine
  | FunctionDefinition_ name arguments returns body =>
      output_newLine;;
      output_addLine ("(func $" ++ name ++ " ");;
      output_indent;;
      paramLoop arguments;;
      solAssert (length returns <=? 1)%nat "Multiple return values not supported yet.";;
      returnName <- returnLoop returns "";;
      output_newLine;;
      output_newLine;;
      visitStatements body;;
      output_newLine;;
      output_newLine;;
      (if negb (String.eqb returnName "")
       then output_addLine ("(return $" ++ returnName ++ ")")
       else ret tt);;
      output_unindent;;
      output_addLine ")";;
      output_newLine
  | FunctionCall_ functionName arguments =>
      resolved <- resolveBuiltinFunction visit functionName arguments;;
      if (resolved : bool) then ret tt
      else
        output_addLine ("(call $" ++ id_name functionName);;
        output_indent;;
        for_each
          (fun statement =>
             output_add " ";;
             visit statement;;
             output_newLine) arguments;;
        output_unindent;;
        output_addLine ")"
  | Switch_ expression cases =>
      let bodies := map visitCaseBody cases in
      solAssert (length cases <=? 2)%nat "";;
      (* One of the cases must be the default case *)
      c0 <- lift (vector_at cases 0);;
      cond <-
        (if nonnull (case_value c0) then ret true
         else c1 <- lift (vector_at cases 1);; ret (nonnull (case_value c1)));;
      solAssert cond "";;
      c0' <- lift (vector_at cases 0);;
      let defaultcase := if nonnull (case_value c0') then 0 else 1 in
      solAssert (Z.of_nat defaultcase <=? size_minus_one cases)%Z "";;
      output_addLine "(if (result i64) ";;
      output_indent;;
      output_add "(i64.eq ";;
      match expression with
      | Some e => visit e
      | None => undefined NullDereference
      end;;
      output_add " ";;
      cv <- lift (vector_at cases (notnot defaultcase));;
      lit <- lift (deref (case_value cv));;
      visitLiteral lit;;
      output_add ")";;
      output_newLine;;
      output_add "(then ";;
      output_indent;;
      thenBody <- lift (vector_at bodies (notnot defaultcase));;
      thenBody;;
      output_unindent;;
      output_addLine ")";;
      (if (length cases =? 2)%nat
       then
         output_add "(else ";;
         output_indent;;
         elseBody <- lift (vector_at bodies defaultcase);;
         elseBody;;
         output_unindent;;
         output_addLine ")"
       else ret tt);;
      output_unindent;;
      output_addLine ")"
  | Block_ _block => blockConstruct (visitStatements _block)
  end
with visitStatements (_block : Block) {struct _block} : Gen unit :=
  match _block with
  | mkBlock ss => for_each visit ss
  end
with visitCaseBody (c : Case) {struct c} : Gen unit :=
  match c with
  | mkCase _ body => blockConstruct (visitStatements body)
  end.

(** ** Generator::Generator and julia::WebAssembly::assemble *)

Definition Generator (_block : Block) : Gen unit :=
  output_addLine "(module ";;
  output_indent;;
  visitStatements _block;;
  output_unindent;;
  output_addLine ")".

Section Assemble.
(** [IndentedWriter::format] is not part of the translation unit; it is
    a function of what was written. *)
Variable format : IndentedWriter -> string.

(** [Generator(_block).assembly()]: a new generator, hence a new
    writer, for every call. *)
Definition assemble (_block : Block) : outcome string :=
  outcome_map (fun r => format (snd r)) (Generator _block IndentedWriter_new).
End Assemble.

(** The calls a lowering makes, started on a fresh writer. *)
Definition emitted (g : Gen unit) : outcome (list WriterCall) :=
  outcome_map snd (g IndentedWriter_new).

(** ** The writer's text *)

(** Modelled from the spec: IndentedWriter (IndentedWriter.h is not among
    the sources).  Section 4.1 describes it as a pure accumulator that
    appends literal fragments, starts new lines with the current
    indentation, keeps the nesting depth as a counter that is never
    negative, and whose [format] returns the concatenated text.  The text
    of one indentation step is not given and is a parameter. *)
Record WriterText : Type :=
  mkWriterText { text : string; depth : nat; lineStart : bool }.

Fixpoint indentation (step : string) (depth : nat) : string :=
  match depth with
  | O => ""
  | S d => step ++ indentation step d
  end.

Definition newline : string := String (ascii_of_nat 10) "".

(** A fragment: the first one of a line is preceded by the indentation. *)
Definition addFragment (step : string) (s : WriterText) (str : string) : WriterText :=
  mkWriterText
    (text s ++ (if lineStart s then indentation step (depth s) else "") ++ str)
    (depth s) false.

Definition startLine (s : WriterText) : WriterText :=
  mkWriterText (text s ++ newline) (depth s) true.

Definition replayCall (step : string) (s : WriterText) (c : WriterCall) : WriterText :=
  match c with
  | Add str => addFragment step s str
  | NewLine => startLine s
  | AddLine line => startLine (addFragment step s line)
  | Indent => mkWriterText (text s) (S (depth s)) (lineStart s)
  | Unindent => mkWriterText (text s) (pred (depth s)) (lineStart s)
  end.

Definition formatWith (step : string) (w : IndentedWriter) : string :=
  text (fold_left (replayCall step) w (mkWriterText "" 0 true)).

(** ** What a lowering does to the writer *)

(** [yields g a t]: from any writer, [g] succeeds with result [a] after
    making exactly the calls [t]. *)
Definition yields {A} (g : Gen A) (a : A) (t : list WriterCall) : Prop :=
  forall w, g w = Ok (a, w ++ t).

Definition lowers (g : Gen unit) (t : list WriterCall) : Prop := yields g tt t.

(** [framed g]: what [g] does on a writer that already holds [w] is what
    it does on a fresh writer, after [w]; [g] never reads the writer. *)
Definition after {A} (w : IndentedWriter) (o : outcome (A * IndentedWriter))
  : outcome (A * IndentedWriter) :=
  outcome_map (fun r => (fst r, w ++ snd r)) o.

Definition framed {A} (g : Gen A) : Prop :=
  forall w, g w = after w (g IndentedWriter_new).

(** ** The emitted constructs

    The shapes of the target text, as sequences of writer calls around
    the already lowered parts. *)

(** A grouping construct around lowered statements. *)
Definition blockText (t : list WriterCall) : list WriterCall :=
  [Add "(block "; Indent] ++ t ++ [Unindent; Add ")"].

(** The text of a conditional: the equality test of [te] against [tv],
    the "then" branch [tthen] and, when present, the "else" branch. *)
Definition switchText (te tv tthen : list WriterCall)
    (telse : option (list WriterCall)) : list WriterCall :=
  [AddLine "(if (result i64) "; Indent; Add "(i64.eq "] ++ te ++ [Add " "] ++ tv
  ++ [Add ")"; NewLine; Add "(then "; Indent] ++ tthen ++ [Unindent; AddLine ")"]
  ++ match telse with
     | Some t => [Add "(else "; Indent] ++ t ++ [Unindent; AddLine ")"]
     | None => []
     end
  ++ [Unindent; AddLine ")"].

(** The table of builtins as the specification gives it: callee name to
    target-native instruction. *)
Definition nativeInstruction (callee : string) : option string :=
  if callee =? "add64" then Some "i64.add"
  else if callee =? "sub64" then Some "i64.sub"
  else if callee =? "mul64" then Some "i64.mul"
  else if callee =? "gt64" then Some "i64.gt_u"
  else None.

(** A native instruction wrapping two lowered operands, left then right. *)
Definition nativeText (instr : string) (t0 t1 : list WriterCall) : list WriterCall :=
  [Add ("(" ++ instr ++ " "); Indent] ++ t0 ++ [NewLine] ++ t1 ++ [Unindent; Add ")"].

(** A call instruction naming the callee over the lowered operands. *)
Definition callText (callee : string) (ts : list (list WriterCall)) : list WriterCall :=
  [AddLine ("(call $" ++ callee); Indent]
  ++ flat_map (fun t => [Add " "] ++ t ++ [NewLine]) ts
  ++ [Unindent; AddLine ")"].

(** The parameter declarations, each with the mapped type. *)
Definition paramText (arguments : TypedNameList) : list WriterCall :=
  map (fun a => AddLine ("(param $" ++ tn_name a ++ " i64)")) arguments.

Definition resultText (returns : TypedNameList) : list WriterCall :=
  flat_map
    (fun r => [AddLine "(result i64)"; AddLine ("(local $" ++ tn_name r ++ " i64)")])
    returns.

(** The name left in [returnName] by the loop over the return bindings. *)
Definition lastReturnName (returns : TypedNameList) (initial : string) : string :=
  fold_left (fun _ r => tn_name r) returns initial.

Definition returnText (returnName : string) : list WriterCall :=
  if returnName =? "" then [] else [AddLine ("(return $" ++ returnName ++ ")")].

(** The function construct: header, parameters, result and local, the
    lowered body, the return, the closing parenthesis. *)
Definition functionText (name : string) (tparams tresult tbody treturn : list WriterCall)
  : list WriterCall :=
  [NewLine; AddLine ("(func $" ++ name ++ " "); Indent] ++ tparams ++ tresult
  ++ [NewLine; NewLine] ++ tbody ++ [NewLine; NewLine] ++ treturn
  ++ [Unindent; AddLine ")"; NewLine].

Definition supported (tn : TypedName) : Prop := In (tn_type tn) supportedTypes.

Definition is_result_declaration (c : WriterCall) : bool :=
  match c with AddLine l => String.prefix "(result " l | _ => false end.

Definition is_return (c : WriterCall) : bool :=
  match c with AddLine l => String.prefix "(return $" l | _ => false end.

Definition count (p : WriterCall -> bool) (t : list WriterCall) : nat :=
  length (filter p t).

(** The module wrapper around the lowered root statements. *)
Definition moduleText (t : list WriterCall) : list WriterCall :=
  [AddLine "(module "; Indent] ++ t ++ [Unindent; AddLine ")"].

(** A local-variable write around the lowered value. *)
Definition assignmentText (name : string) (t : list WriterCall) : list WriterCall :=
  [AddLine ("(set_local $" ++ name ++ " "); Indent] ++ t
  ++ [Unindent; Add ")"; NewLine].

(** ** Following the calls of a lowering

    [run step s t] feeds the calls [t], in order, to a machine that
    starts in state [s]; a step may refuse a call.  [tracks step pre post
    Q g]: whenever [g] succeeds, its result satisfies [Q], the writer has
    only grown, and the calls it added take the machine from [pre] to
    [post] without a refusal. *)
Fixpoint run {St : Type} (step : St -> WriterCall -> option St) (s : St)
    (t : list WriterCall) : option St :=
  match t with
  | [] => Some s
  | c :: rest =>
      match step s c with
      | Some s' => run step s' rest
      | None => None
      end
  end.

Definition tracks {St A : Type} (step : St -> WriterCall -> option St)
    (pre post : St) (Q : A -> Prop) (g : Gen A) : Prop :=
  forall w a w',
    g w = Ok (a, w') -> Q a /\ exists t, w' = w ++ t /\ run step pre t = Some post.

(** The nesting depth kept by [indent] and [unindent]; an [unindent] at
    depth 0 is refused. *)
Definition indentStep (level : nat) (c : WriterCall) : option nat :=
  match c with
  | Indent => Some (S level)
  | Unindent => match level with O => None | S l => Some l end
  | _ => Some level
  end.

(** A lowering that, from whatever level it starts, never unindents below
    that level and ends on it. *)
Definition keepsLevel {A} (g : Gen A) : Prop :=
  forall n, tracks indentStep n n (fun _ => True) g.

(** The depth of open parentheses along a text; a closing parenthesis at
    depth 0 is refused. *)
Definition parenChar (depth : nat) (c : ascii) : option nat :=
  if Ascii.eqb c "("%char then Some (S depth)
  else if Ascii.eqb c ")"%char
       then match depth with O => None | S d => Some d end
       else Some depth.

Fixpoint parenRun (depth : nat) (s : string) : option nat :=
  match s with
  | EmptyString => Some depth
  | String c rest =>
      match parenChar depth c with
      | Some d => parenRun d rest
      | None => None
      end
  end.

Definition parenStep (depth : nat) (c : WriterCall) : option nat :=
  match c with
  | Add str => parenRun depth str
  | AddLine line => parenRun depth line
  | _ => Some depth
  end.

(** A lowering whose fragments, from whatever depth it starts, never
    close a parenthesis that is not open and end on the starting depth. *)
Definition keepsDepth {A} (g : Gen A) : Prop :=
  forall d, tracks parenStep d d (fun _ => True) g.

(** A text without any parenthesis. *)
Fixpoint parenFree (s : string) : bool :=
  match s with
  | EmptyString => true
  | String c rest =>
      negb (Ascii.eqb c "("%char) && negb (Ascii.eqb c ")"%char) && parenFree rest
  end.

Definition optionb {A} (p : A -> bool) (o : option A) : bool :=
  match o with Some a => p a | None => true end.

(** Every name and literal value that the generator copies into the
    text is free of parentheses. *)
Fixpoint namesParenFree (s : Statement) {struct s} : bool :=
  match s with
  | Instruction_ | Label_ _ | StackAssignment_ _ | FunctionalInstruction_ _ => true
  | Literal_ l => parenFree (lit_value l)
  | Identifier_ i => parenFree (id_name i)
  | Assignment_ x v => parenFree (id_name x) && optionb namesParenFree v
  | FunctionCall_ f args => parenFree (id_name f) && forallb namesParenFree args
  | VariableDeclaration_ vars v =>
      forallb (fun tn => parenFree (tn_name tn)) vars && optionb namesParenFree v
  | FunctionDefinition_ n args rets body =>
      parenFree n
      && forallb (fun tn => parenFree (tn_name tn)) args
      && forallb (fun tn => parenFree (tn_name tn)) rets
      && blockParenFree body
  | Switch_ e cases => optionb namesParenFree e && forallb caseParenFree cases
  | Block_ b => blockParenFree b
  end
with blockParenFree (b : Block) {struct b} : bool :=
  match b with
  | mkBlock ss => forallb namesParenFree ss
  end
with caseParenFree (c : Case) {struct c} : bool :=
  match c with
  | mkCase v body => optionb (fun l => parenFree (lit_value l)) v && blockParenFree body
  end.

(** The fragments of a log, in the order written. *)
Definition fragment (c : WriterCall) : string :=
  match c with
  | Add str => str
  | AddLine line => line
  | _ => ""
  end.

Definition fragments (t : list WriterCall) : string :=
  fold_right (fun c acc => (fragment c ++ acc)%string) "" t.

(** ** Trees on which the generator stays within defined behaviour

    Every value and expression pointer it dereferences is present, and
    every Switch has a first case to read and, when that one carries no
    value, a second one. *)
Definition switchShape (cases : list Case) : bool :=
  match cases with
  | [] => false
  | [c] => nonnull (case_value c)
  | _ => true
  end.

Definition presentb {A} (p : A -> bool) (o : option A) : bool :=
  match o with Some a => p a | None => false end.

Fixpoint wellFormed (s : Statement) {struct s} : bool :=
  match s with
  | Instruction_ | Label_ _ | StackAssignment_ _ | FunctionalInstruction_ _
  | Literal_ _ | Identifier_ _ => true
  | Assignment_ _ v => presentb wellFormed v
  | VariableDeclaration_ _ v => presentb wellFormed v
  | FunctionCall_ _ args => forallb wellFormed args
  | FunctionDefinition_ _ _ _ body => wellFormedBlock body
  | Switch_ e cases =>
      presentb wellFormed e && switchShape cases && forallb wellFormedCase cases
  | Block_ b => wellFormedBlock b
  end
with wellFormedBlock (b : Block) {struct b} : bool :=
  match b with
  | mkBlock ss => forallb wellFormed ss
  end
with wellFormedCase (c : Case) {struct c} : bool :=
  match c with
  | mkCase _ body => wellFormedBlock body
  end.

(** [defined Q g]: [g] never runs into undefined behaviour, and when it
    succeeds its result satisfies [Q]. *)
Definition defined {A} (Q : A -> Prop) (g : Gen A) : Prop :=
  forall w,
    (forall f, g w <> Undefined f) /\ (forall a w', g w = Ok (a, w') -> Q a).

(** ** Sample nodes *)

Definition sample_x : Statement := Identifier_ (mkIdentifier "x").
Definition sample_a : Statement := Identifier_ (mkIdentifier "a").
Definition sample_b : Statement := Identifier_ (mkIdentifier "b").
Definition sample_one : Literal := mkLiteral LiteralKind.Number "1" "u64".
Definition sample_two : Literal := mkLiteral LiteralKind.Number "2" "u64".

(** The calls made for the root block that holds [sample_function]. *)
Definition sample_module_calls : list WriterCall :=
  [AddLine "(module "; Indent;
   NewLine; AddLine "(func $f "; Indent; AddLine "(param $x i64)";
   AddLine "(result i64)"; AddLine "(local $r i64)"; NewLine; NewLine;
   AddLine "(set_local $r "; Indent; Add "(get_local $x)"; Unindent; Add ")";
   NewLine; NewLine; NewLine; AddLine "(return $r)"; Unindent; AddLine ")";
   NewLine;
   Unindent; AddLine ")"].

Definition sample_function : Statement :=
  FunctionDefinition_ "f" [mkTypedName "x" "u64"] [mkTypedName "r" "u64"]
    (mkBlock [Assignment_ (mkIdentifier "r") (Some sample_x)]).

(** ** Induction over the tree, reaching into vectors and pointers *)

Definition option_all {A} (P : A -> Prop) (o : option A) : Prop :=
  match o with Some a => P a | None => True end.

Section Statement_mutind.
Variables (P : Statement -> Prop) (Q : Block -> Prop) (R : Case -> Prop).
Hypothesis HInstruction : P Instruction_.
Hypothesis HLiteral : forall l, P (Literal_ l).
Hypothesis HLabel : forall n, P (Label_ n).
Hypothesis HStackAssignment : forall x, P (StackAssignment_ x).
Hypothesis HIdentifier : forall i, P (Identifier_ i).
Hypothesis HAssignment : forall x v, option_all P v -> P (Assignment_ x v).
Hypothesis HFunctionCall : forall f args, Forall P args -> P (FunctionCall_ f args).
Hypothesis HFunctionalInstruction :
  forall args, Forall P args -> P (FunctionalInstruction_ args).
Hypothesis HVariableDeclaration :
  forall vars v, option_all P v -> P (VariableDeclaration_ vars v).
Hypothesis HFunctionDefinition :
  forall n args rets body, Q body -> P (FunctionDefinition_ n args rets body).
Hypothesis HSwitch :
  forall e cases, option_all P e -> Forall R cases -> P (Switch_ e cases).
Hypothesis HBlock : forall b, Q b -> P (Block_ b).
Hypothesis HmkBlock : forall ss, Forall P ss -> Q (mkBlock ss).
Hypothesis HmkCase : forall v body, Q body -> R (mkCase v body).

Fixpoint Statement_mutind (s : Statement) {struct s} : P s :=
  let opt (o : option Statement) : option_all P o :=
    match o as o0 return option_all P o0 with
    | Some s' => Statement_mutind s'
    | None => I
    end in
  let all :=
    fix all (l : list Statement) : Forall P l :=
      match l with
      | [] => Forall_nil P
      | x :: r => Forall_cons x (Statement_mutind x) (all r)
      end in
  match s with
  | Instruction_ => HInstruction
  | Literal_ l => HLiteral l
  | Label_ n => HLabel n
  | StackAssignment_ x => HStackAssignment x
  | Identifier_ i => HIdentifier i
  | Assignment_ x v => HAssignment x v (opt v)
  | FunctionCall_ f args => HFunctionCall f args (all args)
  | FunctionalInstruction_ args => HFunctionalInstruction args (all args)
  | VariableDeclaration_ vars v => HVariableDeclaration vars v (opt v)
  | FunctionDefinition_ n args rets body =>
      HFunctionDefinition n args rets body (Block_mutind body)
  | Switch_ e cases =>
      HSwitch e cases (opt e)
        ((fix allc (l : list Case) : Forall R l :=
            match l with
            | [] => Forall_nil R
            | c :: r => Forall_cons c (Case_mutind c) (allc r)
            end) cases)
  | Block_ b => HBlock b (Block_mutind b)
  end
with Block_mutind (b : Block) {struct b} : Q b :=
  match b with
  | mkBlock ss =>
      HmkBlock ss
        ((fix all (l : list Statement) : Forall P l :=
            match l with
            | [] => Forall_nil P
            | x :: r => Forall_cons x (Statement_mutind x) (all r)
            end) ss)
  end
with Case_mutind (c : Case) {struct c} : R c :=
  match c with
  | mkCase v body => HmkCase v body (Block_mutind body)
  end.

Definition Statement_Block_Case_ind :
  (forall s, P s) /\ (forall b, Q b) /\ (forall c, R c) :=
  conj Statement_mutind (conj Block_mutind Case_mutind).
End Statement_mutind.

(** * Properties *)

(** ** Reasoning about generator programs *)

Lemma yields_ret {A} (a : A) : yields (ret a) a [].
Proof. intros w. unfold ret. now rewrite app_nil_r. Qed.

Lemma yields_call c : yields (call c) tt [c].
Proof. intros w. reflexivity. Qed.

Lemma yields_lift {A} (o : outcome A) a : o = Ok a -> yields (lift o) a [].
Proof. intros -> w. unfold lift. simpl. now rewrite app_nil_r. Qed.

Lemma yields_solAssert d : yields (solAssert true d) tt [].
Proof. intros w. simpl. now rewrite app_nil_r. Qed.

Lemma yields_bind {A B} (m : Gen A) (k : A -> Gen B) a b t1 t2 :
  yields m a t1 -> yields (k a) b t2 -> yields (bind m k) b (t1 ++ t2).
Proof.
  intros Hm Hk w. unfold bind. rewrite Hm, Hk. now rewrite app_assoc.
Qed.

Lemma yields_eq {A} (g : Gen A) a t t' : yields g a t' -> t' = t -> yields g a t.
Proof. now intros H <-. Qed.

Lemma yields_emitted g t : lowers g t -> emitted g = Ok t.
Proof. intros H. unfold emitted. now rewrite H. Qed.

Lemma framed_ret {A} (a : A) : framed (ret a).
Proof. intros w. unfold ret, after. simpl. now rewrite app_nil_r. Qed.

Lemma framed_call c : framed (call c).
Proof. intros w. reflexivity. Qed.

Lemma framed_lift {A} (o : outcome A) : framed (lift o).
Proof.
  intros w. unfold lift, after. destruct o; simpl; trivial.
  now rewrite app_nil_r.
Qed.

Lemma framed_solAssert c d : framed (solAssert c d).
Proof.
  intros w. unfold solAssert, after. destruct c; simpl; trivial.
  now rewrite app_nil_r.
Qed.

Lemma framed_undefined {A} f : framed (@undefined A f).
Proof. intros w. reflexivity. Qed.

Lemma framed_bind {A B} (m : Gen A) (k : A -> Gen B) :
  framed m -> (forall a, framed (k a)) -> framed (bind m k).
Proof.
  intros Hm Hk w. unfold bind. rewrite (Hm w).
  destruct (m IndentedWriter_new) as [[a t] | d | f]; simpl; trivial.
  rewrite (Hk a (w ++ t)), (Hk a t). unfold after.
  destruct (k a IndentedWriter_new) as [[b t'] | d | f]; simpl; trivial.
  now rewrite app_assoc.
Qed.

Lemma framed_bind_lift {A B} (o : outcome A) (k : A -> Gen B) :
  (forall a, o = Ok a -> framed (k a)) -> framed (bind (lift o) k).
Proof.
  intros Hk. destruct o as [a | d | f]; try (intros w; reflexivity).
  intros w. unfold bind, lift. simpl. apply (Hk a eq_refl w).
Qed.

Lemma framed_if {A} (c : bool) (g1 g2 : Gen A) :
  framed g1 -> framed g2 -> framed (if c then g1 else g2).
Proof. now destruct c. Qed.

Lemma framed_yields g t : framed g -> emitted g = Ok t -> lowers g t.
Proof.
  intros Hg He w. rewrite (Hg w). unfold emitted in He.
  destruct (g IndentedWriter_new) as [[[] t'] | d | f]; simpl in *; congruence.
Qed.

Ltac framed_step :=
  first
    [ apply framed_bind; [ | intros ? ]
    | apply framed_if
    | apply framed_ret | apply framed_call | apply framed_lift
    | apply framed_solAssert | apply framed_undefined
    | assumption ].

Lemma framed_for_each {A} (f : A -> Gen unit) l :
  Forall (fun x => framed (f x)) l -> framed (for_each f l).
Proof.
  induction 1 as [| x xs Hx Hxs IH]; simpl; repeat framed_step.
Qed.

Lemma framed_visitLiteral l : framed (visitLiteral l).
Proof.
  unfold visitLiteral, output_add. destruct (lit_kind l); repeat framed_step.
Qed.

Lemma framed_paramLoop args : framed (paramLoop args).
Proof.
  induction args as [| a rest IH]; simpl; unfold output_addLine;
    repeat framed_step.
Qed.

Lemma framed_returnLoop rets : forall n, framed (returnLoop rets n).
Proof.
  induction rets as [| r rest IH]; intros n; simpl; unfold output_addLine;
    repeat framed_step.
  apply IH.
Qed.

Lemma framed_blockConstruct g : framed g -> framed (blockConstruct g).
Proof.
  intros H. unfold blockConstruct, output_add, output_indent, output_unindent.
  repeat framed_step.
Qed.

Lemma framed_resolveBuiltinFunction visitor f args :
  Forall (fun a => framed (visitor a)) args ->
  framed (resolveBuiltinFunction visitor f args).
Proof.
  intros Hargs.
  unfold resolveBuiltinFunction, output_add, output_indent, output_unindent,
    output_newLine.
  destruct args as [| a0 [| a1 [| a2 rest]]];
    repeat first
      [ match goal with
        | H : Forall _ (_ :: _) |- _ => inversion H; subst; clear H
        end
      | framed_step ].
Qed.

(** Every node is lowered without reading the writer. *)
Lemma framed_visit_all :
  (forall s, framed (visit s))
  /\ (forall b, framed (visitStatements b))
  /\ (forall c, framed (visitCaseBody c)).
Proof.
  apply Statement_Block_Case_ind.
  - apply framed_solAssert.
  - apply framed_visitLiteral.
  - intros; apply framed_solAssert.
  - intros; apply framed_solAssert.
  - intros; apply framed_call.
  - intros x v Hv. simpl.
    assert (framed (match v with Some v0 => visit v0
                    | None => undefined NullDereference end))
      by (destruct v; [exact Hv | apply framed_undefined]).
    unfold output_addLine, output_indent, output_unindent, output_add,
      output_newLine.
    repeat framed_step.
  - intros f args Hargs. simpl.
    unfold output_addLine, output_indent, output_unindent, output_add.
    assert (Hloop : framed
      (for_each (fun statement =>
                   call (Add " ");; visit statement;; output_newLine) args)).
    { apply framed_for_each.
      induction Hargs as [| x xs Hx Hxs IH]; constructor; trivial.
      unfold output_newLine. repeat framed_step. }
    apply framed_bind.
    + now apply framed_resolveBuiltinFunction.
    + intros [|]; [apply framed_ret |].
      repeat framed_step.
  - intros; apply framed_solAssert.
  - intros vars v Hv. simpl.
    assert (framed (match v with Some v0 => visit v0
                    | None => undefined NullDereference end))
      by (destruct v; [exact Hv | apply framed_undefined]).
    unfold output_addLine, output_indent, output_unindent, output_add,
      output_newLine.
    repeat framed_step.
  - intros n args rets body Hbody. simpl.
    unfold output_addLine, output_indent, output_unindent, output_add,
      output_newLine.
    repeat first [ apply framed_paramLoop | apply framed_returnLoop | framed_step ].
  - intros e cases He Hcases. simpl.
    assert (framed (match e with Some e0 => visit e0
                    | None => undefined NullDereference end))
      by (destruct e; [exact He | apply framed_undefined]).
    assert (Hbodies : forall i b,
      vector_at (map visitCaseBody cases) i = Ok b -> framed b).
    { induction Hcases as [| c rest Hc Hrest IH]; intros [| i] b; unfold vector_at;
        simpl; try discriminate.
      - intros [= <-]. exact Hc.
      - apply IH. }
    unfold output_addLine, output_indent, output_unindent, output_add,
      output_newLine.
    repeat first
      [ apply framed_visitLiteral
      | apply framed_bind_lift; intros ? ?
      | eapply Hbodies; eassumption
      | framed_step ].
  - intros b Hb. simpl. now apply framed_blockConstruct.
  - intros ss Hss. simpl. now apply framed_for_each.
  - intros v body Hb. simpl. now apply framed_blockConstruct.
Qed.

(** ** Composing successful lowerings *)

Ltac yields_head :=
  first
    [ apply yields_call | apply yields_solAssert | apply yields_ret
    | apply yields_lift; first [ reflexivity | eassumption ]
    | eassumption ].

Ltac yields_go tac :=
  first
    [ yields_head
    | tac
    | eapply yields_bind; [ yields_go tac | cbv beta; yields_go tac ] ].

Ltac yields_run :=
  unfold lowers, output_add, output_addLine, output_newLine, output_indent,
    output_unindent in *;
  yields_go fail.

Ltac yields_with tac :=
  unfold lowers, output_add, output_addLine, output_newLine, output_indent,
    output_unindent in *;
  yields_go tac.

Ltac yields_exact :=
  eapply yields_eq; [ yields_run | simpl; rewrite <- ?app_assoc; reflexivity ].

Lemma lowers_blockConstruct g t :
  lowers g t -> lowers (blockConstruct g) (blockText t).
Proof. intros H. unfold blockConstruct, blockText. yields_exact. Qed.


(** ** The type mapper *)

Lemma set_count_In s x : set_count s x <> 0 <-> In x s.
Proof.
  unfold set_count. destruct (existsb (String.eqb x) s) eqn:E.
  - split; [intros _ | discriminate].
    apply existsb_exists in E as (y & Hy & Heq).
    apply String.eqb_eq in Heq. now subst.
  - split; [congruence | intros Hin]. exfalso.
    assert (existsb (String.eqb x) s = true); [| congruence].
    apply existsb_exists. exists x. split; [assumption | apply String.eqb_refl].
Qed.

Lemma convertType_supported type :
  In type supportedTypes -> convertType type = Ok "i64".
Proof.
  intros Hin. unfold convertType.
  destruct (type =? "") eqn:E.
  - apply String.eqb_eq in E. subst. simpl in Hin.
    repeat destruct Hin as [Hin | Hin]; try discriminate; contradiction.
  - destruct (set_count supportedTypes type =? 0)%nat eqn:E0; [| reflexivity].
    apply Nat.eqb_eq in E0. now apply set_count_In in Hin.
Qed.

Lemma convertType_unsupported type :
  ~ In type supportedTypes -> type <> "" ->
  convertType type = AssertionFailed ("Type (" ++ type ++ ") not supported yet.").
Proof.
  intros Hout Hne. unfold convertType.
  destruct (type =? "") eqn:E; [apply String.eqb_eq in E; contradiction |].
  destruct (set_count supportedTypes type =? 0)%nat eqn:E0; [reflexivity |].
  apply Nat.eqb_neq in E0. now apply set_count_In in E0.
Qed.

(** C6, as amended.  Every type name of the supported set maps to "i64".
    A non-empty name outside the set fails with the unsupported-type
    message that carries the name; the empty name fails earlier, with the
    message that only Julia input is supported, which names no type. *)
Theorem convertType_cases (type : Type_) :
  (In type supportedTypes -> convertType type = Ok "i64")
  /\ (~ In type supportedTypes -> type <> "" ->
      convertType type
      = AssertionFailed ("Type (" ++ type ++ ") not supported yet."))
  /\ (type = "" ->
      convertType type = AssertionFailed "Only Julia input is supported.").
Proof.
  split; [apply convertType_supported |].
  split; [apply convertType_unsupported |].
  now intros ->.
Qed.

Lemma convertType_cases_witness :
  convertType "u32" = Ok "i64"
  /\ convertType "u256" = AssertionFailed "Type (u256) not supported yet.".
Proof.
  split.
  - apply (proj1 (convertType_cases "u32")). simpl. tauto.
  - apply (proj1 (proj2 (convertType_cases "u256"))).
    + simpl. intros H. repeat destruct H as [H | H]; try discriminate; exact H.
    + discriminate.
Defined.

(** C6 as stated fails at the empty type name: it lies outside the
    supported set, yet the failure does not carry it. *)
Lemma convertType_empty_name :
  ~ In "" supportedTypes
  /\ convertType "" = AssertionFailed "Only Julia input is supported."
  /\ convertType "" <> AssertionFailed ("Type (" ++ "" ++ ") not supported yet.").
Proof.
  split; [| split; [reflexivity | discriminate]].
  simpl. intros H. repeat destruct H as [H | H]; try discriminate; exact H.
Qed.

(** ** Literals *)

Lemma lowers_literal_number l :
  In (lit_type l) supportedTypes -> lit_kind l = LiteralKind.Number ->
  lowers (visitLiteral l) [Add ("(i64.const " ++ lit_value l ++ ")")].
Proof.
  intros Ht Hk. unfold visitLiteral. rewrite Hk.
  apply convertType_supported in Ht. yields_exact.
Qed.

Lemma lowers_literal_boolean l :
  In (lit_type l) supportedTypes -> lit_kind l = LiteralKind.Boolean ->
  lowers (visitLiteral l)
    [Add ("(i64.const " ++ (if lit_value l =? "true" then "1" else "0") ++ ")")].
Proof.
  intros Ht Hk. unfold visitLiteral. rewrite Hk.
  apply convertType_supported in Ht. yields_exact.
Qed.

(** C7, as amended.  With a supported type, a numeric literal lowers to
    one typed constant carrying its value text verbatim, and a boolean
    literal to the typed constant 1 when its value text is "true" and 0
    otherwise (so also for "false").  A literal of any other kind fails
    fatally, whatever its type. *)
Theorem literal_lowering (l : Literal) :
  (In (lit_type l) supportedTypes -> lit_kind l = LiteralKind.Number ->
   lowers (visit (Literal_ l)) [Add ("(i64.const " ++ lit_value l ++ ")")])
  /\ (In (lit_type l) supportedTypes -> lit_kind l = LiteralKind.Boolean ->
      lit_value l = "true" ->
      lowers (visit (Literal_ l)) [Add "(i64.const 1)"])
  /\ (In (lit_type l) supportedTypes -> lit_kind l = LiteralKind.Boolean ->
      lit_value l <> "true" ->
      lowers (visit (Literal_ l)) [Add "(i64.const 0)"])
  /\ (lit_kind l = LiteralKind.String ->
      forall w, visit (Literal_ l) w
                = AssertionFailed "Non-number literals not supported.").
Proof.
  split; [| split; [| split]].
  - apply lowers_literal_number.
  - intros Ht Hk Hv. pose proof (lowers_literal_boolean l Ht Hk) as H.
    now rewrite Hv in H.
  - intros Ht Hk Hv. pose proof (lowers_literal_boolean l Ht Hk) as H.
    apply String.eqb_neq in Hv. now rewrite Hv in H.
  - intros Hk w. simpl. unfold visitLiteral. now rewrite Hk.
Qed.

Lemma literal_lowering_witness :
  lowers (visit (Literal_ (mkLiteral LiteralKind.Number "5" "u64")))
    [Add "(i64.const 5)"]
  /\ lowers (visit (Literal_ (mkLiteral LiteralKind.Boolean "true" "bool")))
       [Add "(i64.const 1)"]
  /\ lowers (visit (Literal_ (mkLiteral LiteralKind.Boolean "false" "bool")))
       [Add "(i64.const 0)"]
  /\ visit (Literal_ (mkLiteral LiteralKind.String "abc" "u64")) IndentedWriter_new
     = AssertionFailed "Non-number literals not supported.".
Proof.
  split; [| split; [| split]].
  - apply (proj1 (literal_lowering (mkLiteral LiteralKind.Number "5" "u64")));
      [simpl; tauto | reflexivity].
  - apply (proj1 (proj2 (literal_lowering
                           (mkLiteral LiteralKind.Boolean "true" "bool"))));
      [simpl; tauto | reflexivity | reflexivity].
  - apply (proj1 (proj2 (proj2 (literal_lowering
                           (mkLiteral LiteralKind.Boolean "false" "bool")))));
      [simpl; tauto | reflexivity | discriminate].
  - apply (proj2 (proj2 (proj2 (literal_lowering
                           (mkLiteral LiteralKind.String "abc" "u64"))))).
    reflexivity.
Defined.

(** C7 as stated fails at a boolean literal whose type is not supported:
    nothing is emitted, the translation stops on the type. *)
Lemma boolean_literal_unsupported_type :
  emitted (visit (Literal_ (mkLiteral LiteralKind.Boolean "true" "u256")))
  = AssertionFailed "Type (u256) not supported yet.".
Proof. reflexivity. Qed.

(** ** Switch *)

Ltac yields_switch :=
  eapply yields_eq;
  [ yields_with ltac:(first [ apply lowers_blockConstruct; eassumption ])
  | unfold switchText, blockText; simpl; rewrite <- ?app_assoc; simpl;
    reflexivity ].

(** A first case that carries a value is the one tested and the one
    lowered, in the "then" branch and again in the "else" branch when a
    second case exists; the second case is not looked at. *)
Lemma lowers_switch_value_first e v b c1 te tv tb :
  lowers (visit e) te -> lowers (visitLiteral v) tv ->
  lowers (visitStatements b) tb ->
  lowers (visit (Switch_ (Some e) [mkCase (Some v) b; c1]))
    (switchText te tv (blockText tb) (Some (blockText tb))).
Proof. intros He Hv Hb. simpl. yields_switch. Qed.

Lemma lowers_switch_value_second e v b b0 te tv tb :
  lowers (visit e) te -> lowers (visitLiteral v) tv ->
  lowers (visitStatements b) tb ->
  lowers (visit (Switch_ (Some e) [mkCase None b0; mkCase (Some v) b]))
    (switchText te tv (blockText tb) (Some (blockText tb))).
Proof. intros He Hv Hb. simpl. yields_switch. Qed.

Lemma lowers_switch_single_value e v b te tv tb :
  lowers (visit e) te -> lowers (visitLiteral v) tv ->
  lowers (visitStatements b) tb ->
  lowers (visit (Switch_ (Some e) [mkCase (Some v) b]))
    (switchText te tv (blockText tb) None).
Proof. intros He Hv Hb. simpl. yields_switch. Qed.

Lemma lowers_identifier n :
  lowers (visit (Identifier_ (mkIdentifier n))) [Add ("(get_local $" ++ n ++ ")")].
Proof. intros w. reflexivity. Qed.

Lemma lowers_single_statement s t :
  lowers (visit s) t -> lowers (visitStatements (mkBlock [s])) t.
Proof. intros H. simpl. eapply yields_eq; [yields_run | apply app_nil_r]. Qed.

(** C1 (the code departs from it).  In a Switch with two cases, one
    default and one carrying a value, in either order, the equality test
    compares the scrutinee with the value and the "then" branch lowers the
    body of the value-carrying case; the "else" branch lowers that same
    body once more.  The body of the default case is not lowered. *)
Theorem switch_else_repeats_value_case e v bv bd te tv tb :
  lowers (visit e) te -> lowers (visitLiteral v) tv ->
  lowers (visitStatements bv) tb ->
  lowers (visit (Switch_ (Some e) [mkCase (Some v) bv; mkCase None bd]))
    (switchText te tv (blockText tb) (Some (blockText tb)))
  /\ lowers (visit (Switch_ (Some e) [mkCase None bd; mkCase (Some v) bv]))
       (switchText te tv (blockText tb) (Some (blockText tb))).
Proof.
  intros He Hv Hb. split.
  - now apply lowers_switch_value_first.
  - now apply lowers_switch_value_second.
Qed.

Lemma switch_else_repeats_value_case_witness :
  lowers
    (visit (Switch_ (Some sample_x)
              [mkCase (Some sample_one) (mkBlock [sample_a]);
               mkCase None (mkBlock [sample_b])]))
    (switchText [Add "(get_local $x)"] [Add "(i64.const 1)"]
       (blockText [Add "(get_local $a)"])
       (Some (blockText [Add "(get_local $a)"]))).
Proof.
  apply (switch_else_repeats_value_case sample_x sample_one
           (mkBlock [sample_a]) (mkBlock [sample_b])).
  - intros w. reflexivity.
  - intros w. reflexivity.
  - intros w. reflexivity.
Defined.

(** At that input the "else" branch is not the lowered default body. *)
Lemma switch_else_is_not_default_body :
  emitted
    (visit (Switch_ (Some sample_x)
              [mkCase (Some sample_one) (mkBlock [sample_a]);
               mkCase None (mkBlock [sample_b])]))
  <> Ok (switchText [Add "(get_local $x)"] [Add "(i64.const 1)"]
           (blockText [Add "(get_local $a)"])
           (Some (blockText [Add "(get_local $b)"]))).
Proof. vm_compute. discriminate. Qed.

(** C2 (the code departs from it).  More than two cases fail the size
    assertion.  With no case at all the first read of [cases[0]] is out
    of range, which is no assertion failure.  With one or two cases that
    all carry a value nothing fails: the conditional is emitted, built
    from the first case. *)
Theorem switch_shape_checks :
  (forall e c0 c1 c2 rest w,
     visit (Switch_ e (c0 :: c1 :: c2 :: rest)) w = AssertionFailed "")
  /\ (forall e w, visit (Switch_ e []) w = Undefined OutOfRange)
  /\ (forall e v0 b0 v1 b1 te tv tb,
        lowers (visit e) te -> lowers (visitLiteral v0) tv ->
        lowers (visitStatements b0) tb ->
        lowers (visit (Switch_ (Some e) [mkCase (Some v0) b0; mkCase (Some v1) b1]))
          (switchText te tv (blockText tb) (Some (blockText tb))))
  /\ (forall e v0 b0 te tv tb,
        lowers (visit e) te -> lowers (visitLiteral v0) tv ->
        lowers (visitStatements b0) tb ->
        lowers (visit (Switch_ (Some e) [mkCase (Some v0) b0]))
          (switchText te tv (blockText tb) None)).
Proof.
  split; [| split; [| split]].
  - reflexivity.
  - reflexivity.
  - intros. now apply lowers_switch_value_first.
  - intros. now apply lowers_switch_single_value.
Qed.

Lemma switch_shape_checks_witness :
  lowers
    (visit (Switch_ (Some sample_x)
              [mkCase (Some sample_one) (mkBlock [sample_a]);
               mkCase (Some sample_two) (mkBlock [sample_b])]))
    (switchText [Add "(get_local $x)"] [Add "(i64.const 1)"]
       (blockText [Add "(get_local $a)"])
       (Some (blockText [Add "(get_local $a)"])))
  /\ lowers
       (visit (Switch_ (Some sample_x)
                 [mkCase (Some sample_one) (mkBlock [sample_a])]))
       (switchText [Add "(get_local $x)"] [Add "(i64.const 1)"]
          (blockText [Add "(get_local $a)"]) None).
Proof.
  split.
  - apply (proj1 (proj2 (proj2 switch_shape_checks))); intros w; reflexivity.
  - apply (proj2 (proj2 (proj2 switch_shape_checks))); intros w; reflexivity.
Defined.

(** C3 (the code departs from it).  A Switch whose only case is the
    default case reads [cases[1]] while checking for a value, one past
    the end of the vector; nothing is emitted. *)
Theorem switch_single_default_out_of_range :
  forall e body w,
    visit (Switch_ e [mkCase None body]) w = Undefined OutOfRange.
Proof. reflexivity. Qed.

(** ** Function calls *)

Lemma lowers_for_each {A} (f : A -> Gen unit) l ts :
  Forall2 (fun x t => lowers (f x) t) l ts ->
  lowers (for_each f l) (concat ts).
Proof.
  induction 1 as [| x t xs ts' Hx Hxs IH]; simpl.
  - apply yields_ret.
  - eapply yields_bind; eassumption.
Qed.

Lemma lowers_argument_loop args ts :
  Forall2 (fun a t => lowers (visit a) t) args ts ->
  lowers
    (for_each (fun statement => output_add " ";; visit statement;; output_newLine)
       args)
    (flat_map (fun t => [Add " "] ++ t ++ [NewLine]) ts).
Proof.
  intros H. rewrite flat_map_concat_map. apply lowers_for_each.
  induction H as [| a t args' ts' Ha Hargs IH]; simpl; constructor; trivial.
  yields_exact.
Qed.

Lemma lowers_native_call callee instr a0 a1 t0 t1 :
  nativeInstruction callee = Some instr ->
  lowers (visit a0) t0 -> lowers (visit a1) t1 ->
  lowers (visit (FunctionCall_ (mkIdentifier callee) [a0; a1]))
    (nativeText instr t0 t1).
Proof.
  intros Hn H0 H1. unfold nativeInstruction in Hn.
  cbn -[String.eqb]. unfold resolveBuiltinFunction. cbn -[String.eqb].
  destruct (callee =? "add64");
    [| destruct (callee =? "sub64");
       [| destruct (callee =? "mul64");
          [| destruct (callee =? "gt64"); [| discriminate]]]];
    injection Hn as <-;
    (eapply yields_eq;
     [ yields_run
     | unfold nativeText; simpl; rewrite <- ?app_assoc; simpl;
       now rewrite ?app_nil_r ]).
Qed.

Lemma lowers_ordinary_call callee args ts :
  nativeInstruction callee = None ->
  Forall2 (fun a t => lowers (visit a) t) args ts ->
  lowers (visit (FunctionCall_ (mkIdentifier callee) args)) (callText callee ts).
Proof.
  intros Hn Hargs. unfold nativeInstruction in Hn.
  cbn -[String.eqb]. unfold resolveBuiltinFunction. cbn -[String.eqb].
  destruct (callee =? "add64"); [discriminate |].
  destruct (callee =? "sub64"); [discriminate |].
  destruct (callee =? "mul64"); [discriminate |].
  destruct (callee =? "gt64"); [discriminate |].
  apply lowers_argument_loop in Hargs.
  eapply yields_eq; [yields_run |].
  unfold callText. simpl. now rewrite <- ?app_assoc.
Qed.

(** C4.  A call of add64, sub64, mul64 or gt64 with two arguments lowers
    to the native instruction i64.add, i64.sub, i64.mul or i64.gt_u around
    the two lowered arguments, first then second, and not to a call
    instruction.  A call of any other name lowers to a call instruction
    that names the callee, with every argument lowered in order. *)
Theorem functionCall_lowering (callee : string) (args : list Statement) :
  (forall instr a0 a1 t0 t1,
     nativeInstruction callee = Some instr -> args = [a0; a1] ->
     lowers (visit a0) t0 -> lowers (visit a1) t1 ->
     lowers (visit (FunctionCall_ (mkIdentifier callee) args))
       (nativeText instr t0 t1))
  /\ (forall ts,
        nativeInstruction callee = None ->
        Forall2 (fun a t => lowers (visit a) t) args ts ->
        lowers (visit (FunctionCall_ (mkIdentifier callee) args))
          (callText callee ts)).
Proof.
  split.
  - intros instr a0 a1 t0 t1 Hn -> H0 H1. now apply lowers_native_call.
  - intros ts Hn Hargs. now apply lowers_ordinary_call.
Qed.

Lemma functionCall_lowering_witness :
  lowers (visit (FunctionCall_ (mkIdentifier "gt64") [sample_a; sample_b]))
    [Add "(i64.gt_u "; Indent; Add "(get_local $a)"; NewLine;
     Add "(get_local $b)"; Unindent; Add ")"]
  /\ lowers (visit (FunctionCall_ (mkIdentifier "f") [sample_a; sample_b]))
       [AddLine "(call $f"; Indent;
        Add " "; Add "(get_local $a)"; NewLine;
        Add " "; Add "(get_local $b)"; NewLine;
        Unindent; AddLine ")"].
Proof.
  split.
  - apply (proj1 (functionCall_lowering "gt64" [sample_a; sample_b])
             "i64.gt_u" sample_a sample_b
             [Add "(get_local $a)"] [Add "(get_local $b)"]);
      first [ reflexivity | intros w; reflexivity ].
  - apply (proj2 (functionCall_lowering "f" [sample_a; sample_b])
             [[Add "(get_local $a)"]; [Add "(get_local $b)"]]);
      [ reflexivity | repeat constructor ].
Defined.

(** ** Function definitions *)

Lemma lowers_paramLoop args :
  Forall supported args -> lowers (paramLoop args) (paramText args).
Proof.
  induction 1 as [| a rest Ha Hrest IH]; simpl.
  - apply yields_ret.
  - apply convertType_supported in Ha. yields_exact.
Qed.

Lemma yields_returnLoop rets :
  Forall supported rets ->
  forall n, yields (returnLoop rets n) (lastReturnName rets n) (resultText rets).
Proof.
  induction 1 as [| r rest Hr Hrest IH]; intros n; simpl.
  - apply yields_ret.
  - apply convertType_supported in Hr. specialize (IH (tn_name r)).
    yields_exact.
Qed.

Lemma lowers_return_line n :
  lowers
    (if negb (n =? "") then output_addLine ("(return $" ++ n ++ ")") else ret tt)
    (returnText n).
Proof.
  unfold returnText. destruct (n =? ""); simpl;
    [apply yields_ret | apply yields_call].
Qed.

Lemma lowers_FunctionDefinition name args rets body tb :
  Forall supported args -> Forall supported rets -> length rets <= 1 ->
  lowers (visitStatements body) tb ->
  lowers (visit (FunctionDefinition_ name args rets body))
    (functionText name (paramText args) (resultText rets) tb
       (returnText (lastReturnName rets ""))).
Proof.
  intros Hargs Hrets Hlen Hbody.
  apply lowers_paramLoop in Hargs.
  pose proof (yields_returnLoop rets Hrets "") as Hloop.
  apply Nat.leb_le in Hlen.
  cbn -[String.eqb Nat.leb]. rewrite Hlen.
  eapply yields_eq.
  - yields_with ltac:(apply lowers_return_line).
  - unfold functionText. simpl. now rewrite <- ?app_assoc.
Qed.

Lemma paramLoop_outcome args w :
  (exists w', paramLoop args w = Ok (tt, w'))
  \/ (exists d, paramLoop args w = AssertionFailed d).
Proof.
  revert w. induction args as [| a rest IH]; intros w; simpl.
  - left. now exists w.
  - unfold bind, lift, convertType.
    destruct (tn_type a =? ""); simpl; [right; eauto |].
    destruct (_ =? _)%nat; simpl; [right; eauto |].
    apply IH.
Qed.

Lemma several_returns_fail name args r1 r2 rest body w :
  exists d,
    visit (FunctionDefinition_ name args (r1 :: r2 :: rest) body) w
    = AssertionFailed d.
Proof.
  cbn -[String.eqb paramLoop].
  unfold bind, output_newLine, output_addLine, output_indent, call.
  match goal with
  | |- context [paramLoop args ?w0] =>
      destruct (paramLoop_outcome args w0) as [(w' & E) | (d & E)]; rewrite E
  end; simpl; eauto.
Qed.

Lemma count_app p t1 t2 : count p (t1 ++ t2) = count p t1 + count p t2.
Proof. unfold count. now rewrite filter_app, length_app. Qed.

Lemma count_paramText_result args : count is_result_declaration (paramText args) = 0.
Proof. induction args as [| a rest IH]; [reflexivity | exact IH]. Qed.

Lemma count_paramText_return args : count is_return (paramText args) = 0.
Proof. induction args as [| a rest IH]; [reflexivity | exact IH]. Qed.

(** C5, as amended.  For a FunctionDefinition with exactly one return
    binding whose name is not empty, with supported parameter and return
    types and a body that lowers, the emitted text is the function
    header, the parameter declarations, one result declaration, the local
    of the return binding with its mapped type, the lowered body, and at
    the end one explicit return of that local before the closing
    parenthesis.  Apart from that one result declaration and that one
    return, the text holds exactly those of the body, which are the ones
    of function definitions nested in it.  A FunctionDefinition with more
    than one return binding fails fatally. *)
Theorem functionDefinition_one_return name args r body tb :
  (Forall supported args -> supported r -> tn_name r <> "" ->
   lowers (visitStatements body) tb ->
   let t :=
     functionText name (paramText args)
       [AddLine "(result i64)"; AddLine ("(local $" ++ tn_name r ++ " i64)")]
       tb [AddLine ("(return $" ++ tn_name r ++ ")")] in
   lowers (visit (FunctionDefinition_ name args [r] body)) t
   /\ count is_result_declaration t = 1 + count is_result_declaration tb
   /\ count is_return t = 1 + count is_return tb)
  /\ (forall r2 rest w,
        exists d,
          visit (FunctionDefinition_ name args (r :: r2 :: rest) body) w
          = AssertionFailed d).
Proof.
  split.
  - intros Hargs Hr Hname Hbody t. split; [| split].
    + pose proof (lowers_FunctionDefinition name args [r] body tb Hargs
                    (Forall_cons r Hr (Forall_nil _)) (le_n 1) Hbody) as H.
      unfold returnText, lastReturnName in H. simpl in H.
      apply String.eqb_neq in Hname. rewrite Hname in H. exact H.
    + subst t. unfold functionText.
      rewrite !count_app, count_paramText_result. cbn. lia.
    + subst t. unfold functionText.
      rewrite !count_app, count_paramText_return.
      destruct (tn_name r); cbn; lia.
  - intros r2 rest w. apply several_returns_fail.
Qed.

Lemma functionDefinition_one_return_witness :
  lowers (visit sample_function)
    [NewLine; AddLine "(func $f "; Indent; AddLine "(param $x i64)";
     AddLine "(result i64)"; AddLine "(local $r i64)"; NewLine; NewLine;
     AddLine "(set_local $r "; Indent; Add "(get_local $x)"; Unindent; Add ")";
     NewLine; NewLine; NewLine; AddLine "(return $r)"; Unindent; AddLine ")";
     NewLine].
Proof.
  apply (proj1 (functionDefinition_one_return "f" [mkTypedName "x" "u64"]
                  (mkTypedName "r" "u64")
                  (mkBlock [Assignment_ (mkIdentifier "r") (Some sample_x)])
                  [AddLine "(set_local $r "; Indent; Add "(get_local $x)";
                   Unindent; Add ")"; NewLine])).
  - apply Forall_cons; [unfold supported; simpl; tauto | apply Forall_nil].
  - unfold supported. simpl. tauto.
  - discriminate.
  - intros w. cbv -[app]. rewrite <- !app_assoc. reflexivity.
Defined.

(** C5 as stated fails at two inputs.  A function whose body defines
    another function with a return binding emits two result declarations
    and two returns.  A function whose return binding has the empty name
    emits its result declaration and no return at all. *)
Lemma functionDefinition_result_count_counterexample :
  (exists t,
     emitted
       (visit (FunctionDefinition_ "f" [] [mkTypedName "r" "u64"]
                 (mkBlock [FunctionDefinition_ "g" [] [mkTypedName "s" "u64"]
                             (mkBlock [])])))
     = Ok t
     /\ count is_result_declaration t = 2 /\ count is_return t = 2)
  /\ (exists t,
        emitted
          (visit (FunctionDefinition_ "f" [] [mkTypedName "" "u64"] (mkBlock [])))
        = Ok t
        /\ count is_result_declaration t = 1 /\ count is_return t = 0).
Proof.
  split; eexists; (split; [vm_compute; reflexivity | split; reflexivity]).
Qed.

(** ** Blocks *)





(** ** Declarations and assignments *)

Lemma lowers_Assignment x v t :
  lowers (visit v) t ->
  lowers (visit (Assignment_ x (Some v))) (assignmentText (id_name x) t).
Proof. intros H. simpl. unfold assignmentText. yields_exact. Qed.

Lemma lowers_VariableDeclaration tn v t :
  supported tn -> lowers (visit v) t ->
  lowers (visit (VariableDeclaration_ [tn] (Some v)))
    (AddLine ("(local $" ++ tn_name tn ++ " i64)") :: assignmentText (tn_name tn) t).
Proof.
  intros Ht H. apply convertType_supported in Ht. simpl.
  unfold assignmentText. yields_exact.
Qed.

Lemma Assignment_absent_value x w :
  visit (Assignment_ x None) w = Undefined NullDereference.
Proof. reflexivity. Qed.

Lemma VariableDeclaration_absent_value vars w :
  visit (VariableDeclaration_ vars None) w = Undefined NullDereference
  \/ (length vars <> 1
      /\ visit (VariableDeclaration_ vars None) w
         = AssertionFailed "Tuples not supported yet.")
  \/ (exists tn d,
        vars = [tn] /\ convertType (tn_type tn) = AssertionFailed d
        /\ visit (VariableDeclaration_ vars None) w = AssertionFailed d).
Proof.
  destruct vars as [| tn [| tn' rest]].
  - right. left. split; [discriminate | reflexivity].
  - cbn -[convertType]. unfold bind, lift.
    destruct (convertType (tn_type tn)) as [ty | d | f] eqn:E; simpl.
    + left. reflexivity.
    + right. right. exists tn, d. rewrite E. auto.
    + unfold convertType in E. destruct (tn_type tn =? ""); [discriminate |].
      destruct (_ =? _)%nat; discriminate.
  - right. left. split; [discriminate | reflexivity].
Qed.

(** C10.  The value expression of a VariableDeclaration and of an
    Assignment is dereferenced without a presence check.  With the value
    absent, an Assignment always ends in the dereference of the empty
    pointer, and so does a VariableDeclaration unless it already failed on
    its tuple or type check; no diagnostic concerns the missing value.
    Hence a lowering that succeeds had its value present, and with the
    value present the local write is emitted around the lowered value. *)
Theorem value_dereferenced_unchecked :
  (forall x w, visit (Assignment_ x None) w = Undefined NullDereference)
  /\ (forall tn w,
        supported tn ->
        visit (VariableDeclaration_ [tn] None) w = Undefined NullDereference)
  /\ (forall vars w d,
        visit (VariableDeclaration_ vars None) w = AssertionFailed d ->
        (length vars <> 1 /\ d = "Tuples not supported yet.")
        \/ exists tn, vars = [tn] /\ convertType (tn_type tn) = AssertionFailed d)
  /\ (forall x v w r, visit (Assignment_ x v) w = Ok r -> v <> None)
  /\ (forall vars v w r, visit (VariableDeclaration_ vars v) w = Ok r -> v <> None)
  /\ (forall x v t,
        lowers (visit v) t ->
        lowers (visit (Assignment_ x (Some v))) (assignmentText (id_name x) t))
  /\ (forall tn v t,
        supported tn -> lowers (visit v) t ->
        lowers (visit (VariableDeclaration_ [tn] (Some v)))
          (AddLine ("(local $" ++ tn_name tn ++ " i64)")
           :: assignmentText (tn_name tn) t)).
Proof.
  split; [exact Assignment_absent_value |].
  split.
  { intros tn w Ht. apply convertType_supported in Ht.
    cbn -[convertType]. unfold bind, lift. now rewrite Ht. }
  split.
  { intros vars w d H.
    destruct (VariableDeclaration_absent_value vars w)
      as [E | [(Hlen & E) | (tn & d' & -> & Hty & E)]]; rewrite E in H.
    - discriminate.
    - injection H as <-. left. now split.
    - injection H as <-. right. now exists tn. }
  split.
  { intros x [v |] w r H; [discriminate |].
    now rewrite Assignment_absent_value in H. }
  split.
  { intros vars [v |] w r H; [discriminate |].
    destruct (VariableDeclaration_absent_value vars w)
      as [E | [(_ & E) | (tn & d' & _ & _ & E)]]; rewrite E in H; discriminate. }
  split; [exact lowers_Assignment | exact lowers_VariableDeclaration].
Qed.

Lemma value_dereferenced_unchecked_witness :
  visit (VariableDeclaration_ [mkTypedName "y" "u64"] None) IndentedWriter_new
  = Undefined NullDereference
  /\ lowers (visit (VariableDeclaration_ [mkTypedName "y" "u64"] (Some sample_x)))
       [AddLine "(local $y i64)"; AddLine "(set_local $y "; Indent;
        Add "(get_local $x)"; Unindent; Add ")"; NewLine]
  /\ lowers (visit (Assignment_ (mkIdentifier "y") (Some sample_x)))
       [AddLine "(set_local $y "; Indent; Add "(get_local $x)"; Unindent;
        Add ")"; NewLine].
Proof.
  destruct value_dereferenced_unchecked as (_ & Hdecl & _ & _ & _ & Hasg & Hvar).
  split; [| split].
  - apply Hdecl. unfold supported. simpl. tauto.
  - apply (Hvar (mkTypedName "y" "u64") sample_x [Add "(get_local $x)"]).
    + unfold supported. simpl. tauto.
    + intros w. reflexivity.
  - apply (Hasg (mkIdentifier "y") sample_x [Add "(get_local $x)"]).
    intros w. reflexivity.
Defined.

(** ** Invariants of the emitted calls *)

Section Tracking.
Context {St : Type} (step : St -> WriterCall -> option St).

Lemma run_app s t1 t2 :
  run step s (t1 ++ t2)
  = match run step s t1 with Some s' => run step s' t2 | None => None end.
Proof.
  revert s. induction t1 as [| c t1 IH]; intros s; simpl; [reflexivity |].
  destruct (step s c); [apply IH | reflexivity].
Qed.

Lemma tracks_ret {A} s (a : A) : tracks step s s (fun x => x = a) (ret a).
Proof.
  intros w a' w' [= <- <-]. split; [reflexivity |].
  exists []. now rewrite app_nil_r.
Qed.

Lemma tracks_lift {A} s (o : outcome A) : tracks step s s (fun a => o = Ok a) (lift o).
Proof.
  intros w a w' H. unfold lift in H. destruct o; simpl in H; try discriminate.
  injection H as <- <-. split; [reflexivity |]. exists []. now rewrite app_nil_r.
Qed.

Lemma tracks_solAssert s c d : tracks step s s (fun _ => c = true) (solAssert c d).
Proof.
  intros w a w' H. unfold solAssert in H. destruct c; [| discriminate].
  injection H as <- <-. split; [reflexivity |]. exists []. now rewrite app_nil_r.
Qed.

Lemma tracks_undefined {A} s s' (Q : A -> Prop) f : tracks step s s' Q (undefined f).
Proof. intros w a w' H. discriminate. Qed.

Lemma tracks_call s s' c :
  step s c = Some s' -> tracks step s s' (fun _ => True) (call c).
Proof.
  intros Hc w a w' [= <- <-]. split; [exact I |].
  exists [c]. split; [reflexivity |]. simpl. now rewrite Hc.
Qed.

Lemma tracks_bind {A B} s1 s2 s3 (Q : A -> Prop) (Q' : B -> Prop)
    (m : Gen A) (k : A -> Gen B) :
  tracks step s1 s2 Q m -> (forall a, Q a -> tracks step s2 s3 Q' (k a)) ->
  tracks step s1 s3 Q' (bind m k).
Proof.
  intros Hm Hk w b w' H. unfold bind in H.
  destruct (m w) as [[a w1] | d | f] eqn:E; try discriminate.
  destruct (Hm w a w1 E) as (Ha & t1 & -> & R1).
  destruct (Hk a Ha (w ++ t1) b w' H) as (Hb & t2 & -> & R2).
  split; [exact Hb |]. exists (t1 ++ t2). split; [now rewrite app_assoc |].
  now rewrite run_app, R1.
Qed.

Lemma tracks_bind_undefined {A B} s s' (Q : B -> Prop) f (k : A -> Gen B) :
  tracks step s s' Q (bind (undefined f) k).
Proof. intros w a w' H. discriminate. Qed.

Lemma tracks_bind_failed {A} s s' (Q : A -> Prop) d (k : unit -> Gen A) :
  tracks step s s' Q (bind (solAssert false d) k).
Proof. intros w a w' H. discriminate. Qed.

Lemma tracks_weaken {A} s s' (Q Q' : A -> Prop) (g : Gen A) :
  tracks step s s' Q g -> (forall a, Q a -> Q' a) -> tracks step s s' Q' g.
Proof.
  intros Hg HQ w a w' H. destruct (Hg w a w' H) as (Ha & Ht). split; auto.
Qed.

Lemma tracks_for_each {A} s (f : A -> Gen unit) l :
  Forall (fun x => tracks step s s (fun _ => True) (f x)) l ->
  tracks step s s (fun _ => True) (for_each f l).
Proof.
  induction 1 as [| x xs Hx Hxs IH]; simpl.
  - eapply tracks_weaken; [apply tracks_ret | trivial].
  - eapply tracks_bind; [exact Hx | intros _ _; exact IH].
Qed.

Lemma tracks_emitted s s' (Q : unit -> Prop) g t :
  tracks step s s' Q g -> emitted g = Ok t -> run step s t = Some s'.
Proof.
  intros Hg He. unfold emitted in He.
  destruct (g IndentedWriter_new) as [[a w'] | d | f] eqn:E; try discriminate.
  simpl in He. injection He as ->.
  destruct (Hg _ _ _ E) as (_ & t' & Ht & R). simpl in Ht. now subst.
Qed.
End Tracking.

Ltac tracks_hyp :=
  match goal with
  | H : tracks _ _ _ _ ?g |- tracks _ _ _ _ ?g => apply H
  | H : forall _, tracks _ _ _ _ ?g |- tracks _ _ _ _ ?g => apply H
  | H : ?P ?g |- tracks _ _ _ _ ?g => apply H
  | H : forall x, ?P (?f x) |- tracks _ _ _ _ (?f _) => apply H
  | H : forall x y, ?P (?f x y) |- tracks _ _ _ _ (?f _ _) => apply H
  end.

Ltac tracks_leaf side extra :=
  first
    [ apply tracks_ret | apply tracks_lift | apply tracks_solAssert
    | apply tracks_undefined
    | apply tracks_call; side
    | tracks_hyp
    | extra ].

Ltac tracks_go side extra :=
  lazymatch goal with
  | |- tracks _ _ _ _ (bind (undefined _) _) => apply tracks_bind_undefined
  | |- tracks _ _ _ _ (bind (solAssert false _) _) => apply tracks_bind_failed
  | |- tracks _ _ _ _ (bind _ _) =>
      eapply tracks_bind;
      [ tracks_go side extra
      | intros ? ?; cbv beta in *; tracks_go side extra ]
  | |- tracks _ _ _ _ (if ?c then _ else _) =>
      eapply (tracks_weaken _ _ _ (fun _ => True));
      [ destruct c eqn:?; tracks_go side extra
      | first [ exact (fun _ H => H) | intros; exact I ] ]
  | |- _ =>
      eapply tracks_weaken;
      [ tracks_leaf side extra
      | first [ exact (fun _ H => H) | intros; exact I ] ]
  end.

Ltac tracks_calls side :=
  unfold output_add, output_addLine, output_newLine, output_indent,
    output_unindent in *;
  tracks_go side fail.

(** *** Indentation *)

Lemma keepsLevel_visitLiteral l : keepsLevel (visitLiteral l).
Proof.
  intros n. unfold visitLiteral. destruct (lit_kind l);
    tracks_calls reflexivity.
Qed.

Lemma keepsLevel_paramLoop args : keepsLevel (paramLoop args).
Proof.
  intros n. induction args as [| a rest IH]; simpl; tracks_calls reflexivity.
Qed.

Lemma keepsLevel_returnLoop rets : forall name, keepsLevel (returnLoop rets name).
Proof.
  induction rets as [| r rest IH]; intros name n; simpl;
    tracks_calls reflexivity.
Qed.

Lemma keepsLevel_blockConstruct g : keepsLevel g -> keepsLevel (blockConstruct g).
Proof.
  intros H n. unfold blockConstruct. tracks_calls reflexivity.
Qed.

Lemma keepsLevel_for_each {A} (f : A -> Gen unit) l :
  Forall (fun x => keepsLevel (f x)) l -> keepsLevel (for_each f l).
Proof.
  intros H n. apply tracks_for_each.
  eapply Forall_impl; [| exact H]. intros x Hx. apply Hx.
Qed.

Lemma keepsLevel_resolveBuiltinFunction visitor f args :
  Forall (fun a => keepsLevel (visitor a)) args ->
  keepsLevel (resolveBuiltinFunction visitor f args).
Proof.
  intros Hargs n. unfold resolveBuiltinFunction.
  destruct args as [| a0 [| a1 [| a2 rest]]];
    repeat match goal with
           | H : Forall _ (_ :: _) |- _ => inversion H; subst; clear H
           end;
    tracks_calls reflexivity.
Qed.

Lemma keepsLevel_bodies cases :
  Forall (fun c => keepsLevel (visitCaseBody c)) cases ->
  forall i b, vector_at (map visitCaseBody cases) i = Ok b -> keepsLevel b.
Proof.
  induction 1 as [| c rest Hc Hrest IH]; intros [| i] b; unfold vector_at;
    simpl; try discriminate.
  - intros [= <-]. exact Hc.
  - apply IH.
Qed.

Lemma keepsLevel_visit_all :
  (forall s, keepsLevel (visit s))
  /\ (forall b, keepsLevel (visitStatements b))
  /\ (forall c, keepsLevel (visitCaseBody c)).
Proof.
  apply Statement_Block_Case_ind.
  - intros n. simpl. tracks_calls reflexivity.
  - apply keepsLevel_visitLiteral.
  - intros name n. simpl. tracks_calls reflexivity.
  - intros x n. simpl. tracks_calls reflexivity.
  - intros i n. simpl. unfold visitIdentifier. tracks_calls reflexivity.
  - intros x [v |] Hv n; simpl in *; tracks_calls reflexivity.
  - intros f args Hargs n. simpl.
    pose proof (keepsLevel_resolveBuiltinFunction visit f args Hargs) as Hb.
    assert (Hloop : keepsLevel
      (for_each (fun statement =>
                   output_add " ";; visit statement;; output_newLine) args)).
    { apply keepsLevel_for_each.
      eapply Forall_impl; [| exact Hargs]. intros a Ha m.
      tracks_calls reflexivity. }
    tracks_calls reflexivity.
  - intros args _ n. simpl. tracks_calls reflexivity.
  - intros vars [v |] Hv n; simpl in *; tracks_calls reflexivity.
  - intros name args rets body Hbody n. simpl.
    pose proof (keepsLevel_paramLoop args) as Hp.
    pose proof (keepsLevel_returnLoop rets "") as Hr.
    tracks_calls reflexivity.
  - intros e cases He Hcases n. simpl.
    pose proof (keepsLevel_bodies cases Hcases) as Hbodies.
    pose proof keepsLevel_visitLiteral as Hlit.
    destruct e as [e |]; simpl in He.
    + unfold output_add, output_addLine, output_newLine, output_indent,
        output_unindent.
      tracks_go reflexivity
        ltac:(idtac;
              match goal with
              | Hb : vector_at (map visitCaseBody cases) _ = Ok ?b
                |- tracks _ _ _ _ ?b => apply (Hbodies _ _ Hb)
              end).
    + tracks_calls reflexivity.
  - intros b Hb. simpl. now apply keepsLevel_blockConstruct.
  - intros ss Hss. simpl. now apply keepsLevel_for_each.
  - intros v body Hb. simpl. now apply keepsLevel_blockConstruct.
Qed.

Lemma keepsLevel_Generator b : keepsLevel (Generator b).
Proof.
  intros n. unfold Generator.
  destruct keepsLevel_visit_all as (_ & Hb & _). specialize (Hb b).
  tracks_calls reflexivity.
Qed.

(** *** Parentheses *)

Lemma parenRun_app d s1 s2 :
  parenRun d (s1 ++ s2)
  = match parenRun d s1 with Some d' => parenRun d' s2 | None => None end.
Proof.
  revert d. induction s1 as [| c s1 IH]; intros d; simpl; [reflexivity |].
  destruct (parenChar d c); [apply IH | reflexivity].
Qed.

Lemma parenFree_run s : parenFree s = true -> forall d, parenRun d s = Some d.
Proof.
  induction s as [| c s IH]; simpl; [reflexivity |].
  intros H d. apply andb_prop in H as [H Hs]. apply andb_prop in H as [Ho Hc].
  unfold parenChar.
  destruct (Ascii.eqb c "("); [discriminate |].
  destruct (Ascii.eqb c ")"); [discriminate |].
  now apply IH.
Qed.

Lemma convertType_Ok type ty : convertType type = Ok ty -> ty = "i64".
Proof.
  unfold convertType. destruct (type =? ""); [discriminate |].
  destruct (_ =? _)%nat; [discriminate | congruence].
Qed.

Lemma forallb_vector_at {A} (p : A -> bool) l i x :
  forallb p l = true -> vector_at l i = Ok x -> p x = true.
Proof.
  unfold vector_at. intros H E.
  destruct (nth_error l i) as [y |] eqn:N; [| discriminate].
  injection E as ->. apply nth_error_In in N.
  rewrite forallb_forall in H. now apply H.
Qed.

Ltac split_andb :=
  repeat match goal with
         | H : (_ && _)%bool = true |- _ => apply andb_prop in H; destruct H
         end.

Ltac paren_side :=
  cbv beta in *;
  repeat match goal with
         | Hf : vector_at ?l _ = Ok ?x, F : forallb _ ?l = true |- _ =>
             let Hx := fresh in
             pose proof (forallb_vector_at _ _ _ _ F Hf) as Hx;
             cbv beta in Hx; clear Hf
         end;
  repeat match goal with
         | H : convertType _ = Ok ?ty |- _ => apply convertType_Ok in H; subst ty
         end;
  repeat match goal with
         | |- context [if ?c then _ else _] => destruct c
         end;
  simpl;
  repeat (first [ rewrite parenFree_run by assumption | rewrite parenRun_app ];
          simpl);
  reflexivity.

Ltac paren_calls :=
  unfold output_add, output_addLine, output_newLine, output_indent,
    output_unindent in *;
  tracks_go paren_side fail.

Lemma keepsDepth_visitLiteral l :
  parenFree (lit_value l) = true -> keepsDepth (visitLiteral l).
Proof.
  intros Hl d. unfold visitLiteral. destruct (lit_kind l); paren_calls.
Qed.

Lemma keepsDepth_paramLoop args :
  forallb (fun tn => parenFree (tn_name tn)) args = true ->
  keepsDepth (paramLoop args).
Proof.
  intros H d. induction args as [| a rest IH]; simpl in *; split_andb;
    [| specialize (IH ltac:(assumption))]; paren_calls.
Qed.

Lemma keepsDepth_returnLoop rets :
  forallb (fun tn => parenFree (tn_name tn)) rets = true ->
  forall name, parenFree name = true ->
  forall d, tracks parenStep d d (fun n => parenFree n = true) (returnLoop rets name).
Proof.
  induction rets as [| r rest IH]; intros H name Hname d; simpl in *.
  - eapply tracks_weaken; [apply tracks_ret | now intros a ->].
  - split_andb.
    pose proof (IH ltac:(assumption) (tn_name r) ltac:(assumption)) as IH'.
    unfold output_addLine.
    eapply tracks_bind; [apply tracks_lift | intros ty Hty; cbv beta].
    eapply tracks_bind; [apply tracks_call; paren_side | intros _ _].
    eapply tracks_bind; [apply tracks_lift | intros ty' Hty'; cbv beta].
    eapply tracks_bind; [apply tracks_call; paren_side | intros _ _].
    apply IH'.
Qed.

Lemma keepsDepth_blockConstruct g : keepsDepth g -> keepsDepth (blockConstruct g).
Proof. intros H d. unfold blockConstruct. paren_calls. Qed.

Lemma keepsDepth_for_each {A} (f : A -> Gen unit) l :
  Forall (fun x => keepsDepth (f x)) l -> keepsDepth (for_each f l).
Proof.
  intros H d. apply tracks_for_each.
  eapply Forall_impl; [| exact H]. intros x Hx. apply Hx.
Qed.

Lemma keepsDepth_resolveBuiltinFunction visitor f args :
  Forall (fun a => keepsDepth (visitor a)) args ->
  keepsDepth (resolveBuiltinFunction visitor f args).
Proof.
  intros Hargs d. unfold resolveBuiltinFunction.
  destruct args as [| a0 [| a1 [| a2 rest]]];
    repeat match goal with
           | H : Forall _ (_ :: _) |- _ => inversion H; subst; clear H
           end;
    paren_calls.
Qed.

Lemma Forall_forallb_impl {A} (p : A -> bool) (P : A -> Prop) l :
  Forall (fun x => p x = true -> P x) l -> forallb p l = true -> Forall P l.
Proof.
  induction 1 as [| x xs Hx Hxs IH]; simpl; intros H; [constructor |].
  apply andb_prop in H as [H1 H2]. constructor; auto.
Qed.

Lemma case_literal_parenFree cases i cv lit :
  forallb caseParenFree cases = true -> vector_at cases i = Ok cv ->
  deref (case_value cv) = Ok lit -> parenFree (lit_value lit) = true.
Proof.
  intros H E D. pose proof (forallb_vector_at _ _ _ _ H E) as Hc.
  destruct cv as [[l |] body]; simpl in *; [| discriminate].
  injection D as ->. now apply andb_prop in Hc as [Hc _].
Qed.

Lemma keepsDepth_bodies cases :
  Forall (fun c => keepsDepth (visitCaseBody c)) cases ->
  forall i b, vector_at (map visitCaseBody cases) i = Ok b -> keepsDepth b.
Proof.
  induction 1 as [| c rest Hc Hrest IH]; intros [| i] b; unfold vector_at;
    simpl; try discriminate.
  - intros [= <-]. exact Hc.
  - apply IH.
Qed.

Lemma keepsDepth_visit_all :
  (forall s, namesParenFree s = true -> keepsDepth (visit s))
  /\ (forall b, blockParenFree b = true -> keepsDepth (visitStatements b))
  /\ (forall c, caseParenFree c = true -> keepsDepth (visitCaseBody c)).
Proof.
  apply Statement_Block_Case_ind.
  - intros _ d. simpl. paren_calls.
  - intros l Hl. simpl in *. now apply keepsDepth_visitLiteral.
  - intros name _ d. simpl. paren_calls.
  - intros x _ d. simpl. paren_calls.
  - intros i Hi d. simpl in *. unfold visitIdentifier. paren_calls.
  - intros x [v |] Hv Hn d; simpl in *; split_andb;
      try specialize (Hv ltac:(assumption)); paren_calls.
  - intros f args Hargs Hn d. simpl in *. split_andb.
    pose proof (Forall_forallb_impl _ _ _ Hargs ltac:(assumption)) as Hargs'.
    pose proof (keepsDepth_resolveBuiltinFunction visit f args Hargs') as Hb.
    assert (Hloop : keepsDepth
      (for_each (fun statement =>
                   output_add " ";; visit statement;; output_newLine) args)).
    { apply keepsDepth_for_each.
      eapply Forall_impl; [| exact Hargs']. intros a Ha m.
      paren_calls. }
    paren_calls.
  - intros args _ _ d. simpl. paren_calls.
  - intros vars [v |] Hv Hn d; simpl in *; split_andb;
      try specialize (Hv ltac:(assumption)); paren_calls.
  - intros name args rets body Hbody Hn d. simpl in *. split_andb.
    specialize (Hbody ltac:(assumption)).
    pose proof (keepsDepth_paramLoop args ltac:(assumption)) as Hp.
    pose proof (keepsDepth_returnLoop rets ltac:(assumption) "" eq_refl) as Hr.
    paren_calls.
  - intros e cases He Hcases Hn d. simpl in *. split_andb.
    pose proof (Forall_forallb_impl _ _ _ Hcases ltac:(assumption)) as Hcases'.
    pose proof (keepsDepth_bodies cases Hcases') as Hbodies.
    destruct e as [e |]; simpl in *.
    + specialize (He ltac:(assumption)).
      unfold output_add, output_addLine, output_newLine, output_indent,
        output_unindent.
      tracks_go paren_side
        ltac:(idtac;
              match goal with
              | Hb : vector_at (map visitCaseBody cases) _ = Ok ?b
                |- tracks _ _ _ _ ?b => apply (Hbodies _ _ Hb)
              | |- tracks _ _ _ _ (visitLiteral ?lit) =>
                  apply keepsDepth_visitLiteral;
                  eapply case_literal_parenFree; eassumption
              end).
    + paren_calls.
  - intros b Hb Hn. simpl in *. apply keepsDepth_blockConstruct. auto.
  - intros ss Hss Hn. simpl in *. apply keepsDepth_for_each.
    now apply (Forall_forallb_impl namesParenFree).
  - intros v body Hb Hn. simpl in *. split_andb.
    apply keepsDepth_blockConstruct. auto.
Qed.

Lemma keepsDepth_Generator b : blockParenFree b = true -> keepsDepth (Generator b).
Proof.
  intros Hn d. unfold Generator.
  destruct keepsDepth_visit_all as (_ & Hb & _). specialize (Hb b Hn).
  paren_calls.
Qed.

Lemma parenRun_fragments d t : parenRun d (fragments t) = run parenStep d t.
Proof.
  revert d. induction t as [| c t IH]; intros d; simpl; [reflexivity |].
  rewrite parenRun_app.
  destruct c; simpl; try apply IH;
    (destruct (parenRun d _); [apply IH | reflexivity]).
Qed.

(** ** Freedom from undefined behaviour *)

Lemma defined_ret {A} (a : A) : defined (fun x => x = a) (ret a).
Proof. intros w. split; [discriminate | now intros a' w' [= <- _]]. Qed.

Lemma defined_call c : defined (fun _ => True) (call c).
Proof. intros w. split; [discriminate | trivial]. Qed.

Lemma defined_solAssert c d : defined (fun _ => c = true) (solAssert c d).
Proof.
  intros w. unfold solAssert. destruct c; split; try discriminate; trivial.
Qed.

Lemma defined_lift {A} (o : outcome A) :
  (forall f, o <> Undefined f) -> defined (fun a => o = Ok a) (lift o).
Proof.
  intros Ho w. unfold lift. destruct o as [a | d | f]; simpl.
  - split; [discriminate | now intros a' w' [= <- _]].
  - split; discriminate.
  - now destruct (Ho f).
Qed.

Lemma defined_bind {A B} (Q : A -> Prop) (Q' : B -> Prop) (m : Gen A)
    (k : A -> Gen B) :
  defined Q m -> (forall a, Q a -> defined Q' (k a)) -> defined Q' (bind m k).
Proof.
  intros Hm Hk w. unfold bind. destruct (Hm w) as (Hu & Hq).
  destruct (m w) as [[a w1] | d | f]; [| split; discriminate | now destruct (Hu f)].
  apply Hk. now apply (Hq a w1).
Qed.

Lemma defined_bind_failed {A} (Q : A -> Prop) d (k : unit -> Gen A) :
  defined Q (bind (solAssert false d) k).
Proof. intros w. split; discriminate. Qed.

Lemma defined_bind_lift_Ok {A B} (Q : B -> Prop) (o : outcome A) x
    (k : A -> Gen B) :
  o = Ok x -> defined Q (k x) -> defined Q (bind (lift o) k).
Proof. intros -> Hk w. exact (Hk w). Qed.

Lemma defined_bind_ret {A B} (Q : B -> Prop) (a : A) (k : A -> Gen B) :
  defined Q (k a) -> defined Q (bind (ret a) k).
Proof. intros Hk w. exact (Hk w). Qed.

Lemma defined_weaken {A} (Q Q' : A -> Prop) (g : Gen A) :
  defined Q g -> (forall a, Q a -> Q' a) -> defined Q' g.
Proof.
  intros Hg HQ w. destruct (Hg w) as (Hu & Hq). split; eauto.
Qed.

Lemma defined_for_each {A} (f : A -> Gen unit) l :
  Forall (fun x => defined (fun _ => True) (f x)) l ->
  defined (fun _ => True) (for_each f l).
Proof.
  induction 1 as [| x xs Hx Hxs IH]; simpl.
  - eapply defined_weaken; [apply defined_ret | trivial].
  - eapply defined_bind; [exact Hx | intros _ _; exact IH].
Qed.

Lemma convertType_defined type f : convertType type <> Undefined f.
Proof.
  unfold convertType. destruct (type =? ""); [discriminate |].
  destruct (_ =? _)%nat; discriminate.
Qed.

Ltac defined_hyp :=
  match goal with
  | H : defined _ ?g |- defined _ ?g => apply H
  | H : forall x, defined _ (?f x) |- defined _ (?f _) => apply H
  | H : forall x y, defined _ (?f x y) |- defined _ (?f _ _) => apply H
  end.

Ltac defined_leaf :=
  first
    [ apply defined_ret | apply defined_solAssert | apply defined_call
    | apply defined_lift;
      first [ intros ?; apply convertType_defined | intros ?; discriminate ]
    | defined_hyp ].

Ltac defined_go :=
  lazymatch goal with
  | |- defined _ (bind (solAssert false _) _) => apply defined_bind_failed
  | |- defined _ (bind (ret _) _) => apply defined_bind_ret; simpl; defined_go
  | |- defined _ (bind (lift (vector_at _ _)) _) =>
      eapply defined_bind_lift_Ok; [ reflexivity | simpl; defined_go ]
  | |- defined _ (bind (lift (deref _)) _) =>
      eapply defined_bind_lift_Ok; [ reflexivity | simpl; defined_go ]
  | |- defined _ (bind _ _) =>
      eapply defined_bind;
      [ defined_go
      | intros ? ?; cbv beta in *;
        repeat match goal with
               | H : ?a = _ |- _ => is_var a; subst a
               end;
        simpl;
        defined_go ]
  | |- defined _ (if ?c then _ else _) =>
      eapply (defined_weaken (fun _ => True));
      [ destruct c eqn:?; defined_go
      | first [ exact (fun _ H => H) | intros; exact I ] ]
  | |- _ =>
      eapply defined_weaken;
      [ defined_leaf | first [ exact (fun _ H => H) | intros; exact I ] ]
  end.

Ltac defined_calls :=
  unfold output_add, output_addLine, output_newLine, output_indent,
    output_unindent in *;
  defined_go.

Lemma defined_visitLiteral l : defined (fun _ => True) (visitLiteral l).
Proof. unfold visitLiteral. destruct (lit_kind l); defined_calls. Qed.

Lemma defined_paramLoop args : defined (fun _ => True) (paramLoop args).
Proof. induction args as [| a rest IH]; simpl; defined_calls. Qed.

Lemma defined_returnLoop rets : forall name, defined (fun _ => True) (returnLoop rets name).
Proof. induction rets as [| r rest IH]; intros name; simpl; defined_calls. Qed.

Lemma defined_blockConstruct g :
  defined (fun _ => True) g -> defined (fun _ => True) (blockConstruct g).
Proof. intros H. unfold blockConstruct. defined_calls. Qed.

Lemma defined_resolveBuiltinFunction visitor f args :
  Forall (fun a => defined (fun _ => True) (visitor a)) args ->
  defined (fun _ => True) (resolveBuiltinFunction visitor f args).
Proof.
  intros Hargs. unfold resolveBuiltinFunction.
  destruct args as [| a0 [| a1 [| a2 rest]]];
    repeat match goal with
           | H : Forall _ (_ :: _) |- _ => inversion H; subst; clear H
           end;
    simpl; defined_calls.
Qed.

Ltac forall_inv :=
  repeat match goal with
         | H : Forall _ (_ :: _) |- _ => inversion H; subst; clear H
         end.

Lemma defined_visit_all :
  (forall s, wellFormed s = true -> defined (fun _ => True) (visit s))
  /\ (forall b, wellFormedBlock b = true ->
                defined (fun _ => True) (visitStatements b))
  /\ (forall c, wellFormedCase c = true ->
                defined (fun _ => True) (visitCaseBody c)).
Proof.
  apply Statement_Block_Case_ind.
  - intros _. simpl. defined_calls.
  - intros l _. apply defined_visitLiteral.
  - intros name _. simpl. defined_calls.
  - intros x _. simpl. defined_calls.
  - intros i _. simpl. unfold visitIdentifier. defined_calls.
  - intros x [v |] Hv Hw; simpl in *; [| discriminate].
    specialize (Hv Hw). defined_calls.
  - intros f args Hargs Hw. simpl in *.
    pose proof (Forall_forallb_impl _ _ _ Hargs Hw) as Hargs'.
    pose proof (defined_resolveBuiltinFunction visit f args Hargs') as Hb.
    assert (Hloop : defined (fun _ => True)
      (for_each (fun statement =>
                   output_add " ";; visit statement;; output_newLine) args)).
    { apply defined_for_each.
      eapply Forall_impl; [| exact Hargs']. intros a Ha.
      defined_calls. }
    defined_calls.
  - intros args _ _. simpl. defined_calls.
  - intros vars [v |] Hv Hw; simpl in *; [| discriminate].
    specialize (Hv Hw).
    destruct vars as [| tn [| tn' rest]]; simpl; defined_calls.
  - intros name args rets body Hbody Hw. simpl in *. specialize (Hbody Hw).
    pose proof (defined_paramLoop args) as Hp.
    pose proof (defined_returnLoop rets "") as Hr.
    defined_calls.
  - intros e cases He Hcases Hw. simpl in Hw. split_andb.
    pose proof (Forall_forallb_impl _ _ _ Hcases ltac:(assumption)) as Hcases'.
    pose proof defined_visitLiteral as Hlit.
    destruct e as [e |]; simpl in *; [| discriminate].
    specialize (He ltac:(assumption)).
    destruct cases as [| [[v0 |] b0] [| [[v1 |] b1] [| c2 rest]]];
      simpl in *; try discriminate; forall_inv; simpl in *; defined_calls.
  - intros b Hb Hw. simpl in *. apply defined_blockConstruct. auto.
  - intros ss Hss Hw. simpl in *. apply defined_for_each.
    now apply (Forall_forallb_impl wellFormed).
  - intros v body Hb Hw. simpl in *. apply defined_blockConstruct. auto.
Qed.

Lemma defined_Generator b :
  wellFormedBlock b = true -> defined (fun _ => True) (Generator b).
Proof.
  intros Hw. unfold Generator.
  destruct defined_visit_all as (_ & Hb & _). specialize (Hb b Hw).
  defined_calls.
Qed.

(** ** Properties of whole translations *)

(** X1.  In every successful translation the indent and unindent calls on
    the writer are balanced: from whatever level the writer starts, no
    unindent takes it below that level and the last call leaves it there. *)
Theorem indentation_balanced (b : Block) (t : list WriterCall) :
  emitted (Generator b) = Ok t -> forall n, run indentStep n t = Some n.
Proof.
  intros He n. exact (tracks_emitted _ _ _ _ _ _ (keepsLevel_Generator b n) He).
Qed.

Lemma indentation_balanced_witness :
  run indentStep 0 sample_module_calls = Some 0.
Proof.
  exact (indentation_balanced (mkBlock [sample_function]) sample_module_calls
           eq_refl 0).
Defined.

(** X2.  When no name and no literal value of the tree contains a
    parenthesis, the fragments written by a successful translation, read
    in order, never close a parenthesis that is not open and leave none
    open at the end. *)
Theorem parentheses_matched (b : Block) (t : list WriterCall) :
  blockParenFree b = true -> emitted (Generator b) = Ok t ->
  parenRun 0 (fragments t) = Some 0.
Proof.
  intros Hn He. rewrite parenRun_fragments.
  exact (tracks_emitted _ _ _ _ _ _ (keepsDepth_Generator b Hn 0) He).
Qed.

Lemma parentheses_matched_witness :
  parenRun 0 (fragments sample_module_calls) = Some 0.
Proof.
  exact (parentheses_matched (mkBlock [sample_function]) sample_module_calls
           eq_refl eq_refl).
Defined.

(** X3.  On a tree in which every dereferenced value and expression is
    present and every Switch has a first case, and a second one when the
    first carries no value, the translation stays within defined
    behaviour: it returns a text or stops on an assertion. *)
Theorem wellFormed_translation_defined (format : IndentedWriter -> string)
    (b : Block) :
  wellFormedBlock b = true -> forall f, assemble format b <> Undefined f.
Proof.
  intros Hw f. unfold assemble.
  destruct (defined_Generator b Hw IndentedWriter_new) as (Hu & _).
  destruct (Generator b IndentedWriter_new) as [r | d | f'] eqn:E; simpl;
    try discriminate.
  now destruct (Hu f').
Qed.

Lemma wellFormed_translation_defined_witness :
  assemble (formatWith "  ")
    (mkBlock [Switch_ (Some sample_x)
                [mkCase None (mkBlock [sample_a]);
                 mkCase (Some sample_one) (mkBlock [sample_b])]])
  <> Undefined OutOfRange.
Proof.
  apply (wellFormed_translation_defined (formatWith "  ")
           (mkBlock [Switch_ (Some sample_x)
                       [mkCase None (mkBlock [sample_a]);
                        mkCase (Some sample_one) (mkBlock [sample_b])]])).
  reflexivity.
Defined.

(** X4.  No node is lowered by looking at the writer: on a writer that
    already holds calls, a node succeeds or fails exactly as on a fresh
    writer, with the same message or fault, and on success appends the
    same calls. *)
Theorem lowering_ignores_writer :
  forall (s : Statement) (w : IndentedWriter),
    visit s w = after w (visit s IndentedWriter_new).
Proof. intros s w. destruct framed_visit_all as (Hs & _). apply Hs. Qed.

Lemma bind_assoc {A B C} (m : Gen A) (k : A -> Gen B) (h : B -> Gen C) w :
  bind (bind m k) h w = bind m (fun a => bind (k a) h) w.
Proof. unfold bind. destruct (m w) as [[a w1] | d | f]; reflexivity. Qed.

Lemma bind_ext {A B} (m : Gen A) (k k' : A -> Gen B) w :
  (forall a w1, k a w1 = k' a w1) -> bind m k w = bind m k' w.
Proof.
  intros H. unfold bind. destruct (m w) as [[a w1] | d | f]; auto.
Qed.

Lemma for_each_app {A} (f : A -> Gen unit) l1 l2 w :
  for_each f (l1 ++ l2) w = (for_each f l1;; for_each f l2) w.
Proof.
  revert w. induction l1 as [| x l1 IH]; intros w; [reflexivity |].
  simpl. rewrite bind_assoc. apply bind_ext. intros _ w1. apply IH.
Qed.

(** X5.  Lowering the statements of two lists put end to end is lowering
    the first list and then, on the writer it leaves, the second; if the
    first fails, the second is not started. *)
Theorem visitStatements_app :
  forall (l1 l2 : list Statement) (w : IndentedWriter),
    visitStatements (mkBlock (l1 ++ l2)) w
    = (visitStatements (mkBlock l1);; visitStatements (mkBlock l2)) w.
Proof. intros l1 l2 w. simpl. apply for_each_app. Qed.

Lemma Generator_fails_with b d :
  (forall w, visitStatements b (w ++ [AddLine "(module "; Indent])
             = AssertionFailed d) ->
  forall format, assemble format b = AssertionFailed d.
Proof.
  intros H format. unfold assemble, Generator, output_addLine, output_indent,
    bind, call.
  simpl. specialize (H []). simpl in H. now rewrite H.
Qed.

(** X6.  The translation stops at the first statement that fails: when
    the statements before it lower and it fails an assertion on its own,
    the whole translation fails with that assertion's message, whatever
    follows it. *)
Theorem first_failure_stops_translation (format : IndentedWriter -> string)
    (l1 l2 : list Statement) (s : Statement) (t1 : list WriterCall) (d : string) :
  lowers (visitStatements (mkBlock l1)) t1 ->
  emitted (visit s) = AssertionFailed d ->
  assemble format (mkBlock (l1 ++ s :: l2)) = AssertionFailed d.
Proof.
  intros H1 Hs. apply Generator_fails_with. intros w.
  change (visitStatements (mkBlock (l1 ++ s :: l2)))
    with (for_each visit (l1 ++ s :: l2)).
  rewrite for_each_app. unfold bind at 1.
  change (for_each visit l1) with (visitStatements (mkBlock l1)).
  rewrite H1. simpl. unfold bind at 1.
  destruct framed_visit_all as (Hf & _). rewrite (Hf s).
  unfold emitted in Hs.
  destruct (visit s IndentedWriter_new) as [r | d' | f]; simpl in *;
    try discriminate.
  congruence.
Qed.

Lemma first_failure_stops_translation_witness :
  assemble (formatWith "  ")
    (mkBlock ([sample_x] ++ Label_ "loop" :: [StackAssignment_ (mkIdentifier "y")]))
  = AssertionFailed "Labels are not supported in Julia.".
Proof.
  apply (first_failure_stops_translation (formatWith "  ") [sample_x]
           [StackAssignment_ (mkIdentifier "y")] (Label_ "loop")
           [Add "(get_local $x)"]).
  - intros w. reflexivity.
  - reflexivity.
Defined.




(** X8.  A text returned by the translation is always the format of the
    module wrapper around the calls of the root statements: the first
    calls open "(module " and indent, the last ones unindent and close. *)
Theorem assemble_text_shape (format : IndentedWriter -> string) (b : Block)
    (text : string) :
  assemble format b = Ok text ->
  exists t,
    emitted (visitStatements b) = Ok t /\ text = format (moduleText t).
Proof.
  intros H. unfold assemble in H.
  destruct framed_visit_all as (_ & Hb & _).
  unfold Generator, output_addLine, output_indent, output_unindent,
    bind, call in H. simpl in H.
  rewrite (Hb b) in H. unfold emitted.
  destruct (visitStatements b IndentedWriter_new) as [[[] t] | d | f];
    simpl in H; try discriminate.
  exists t. split; [reflexivity |]. injection H as <-.
  unfold moduleText. simpl. now rewrite <- !app_assoc.
Qed.

Lemma assemble_text_shape_witness :
  exists t,
    emitted (visitStatements (mkBlock [sample_x])) = Ok t
    /\ ("(module " ++ newline ++ "  (get_local $x))" ++ newline)%string
       = formatWith "  " (moduleText t).
Proof.
  apply (assemble_text_shape (formatWith "  ") (mkBlock [sample_x])).
  reflexivity.
Defined.

(** ** Shape and type checks *)

(** X9.  A call of a builtin name with an argument count other than two
    fails the size assertion; no argument is lowered and no call
    instruction is emitted in its place. *)
Theorem builtin_arity_checked (callee instr : string) (args : list Statement) :
  nativeInstruction callee = Some instr -> length args <> 2 ->
  forall w, visit (FunctionCall_ (mkIdentifier callee) args) w = AssertionFailed "".
Proof.
  intros Hn Hlen w. unfold nativeInstruction in Hn.
  cbn -[String.eqb]. unfold resolveBuiltinFunction. cbn -[String.eqb].
  assert (Hb : (length args =? 2)%nat = false) by now apply Nat.eqb_neq.
  rewrite Hb.
  destruct (callee =? "add64");
    [| destruct (callee =? "sub64");
       [| destruct (callee =? "mul64");
          [| destruct (callee =? "gt64"); [| discriminate]]]];
    reflexivity.
Qed.

Lemma builtin_arity_checked_witness :
  visit (FunctionCall_ (mkIdentifier "mul64") [sample_a; sample_b; sample_x])
    IndentedWriter_new
  = AssertionFailed "".
Proof.
  apply (builtin_arity_checked "mul64" "i64.mul" [sample_a; sample_b; sample_x]).
  - reflexivity.
  - simpl. lia.
Defined.

(** X10.  A VariableDeclaration that binds no name or more than one name
    fails with the tuple message, before its type or its value is looked
    at. *)
Theorem tuple_declaration_rejected (vars : TypedNameList) (v : option Statement) :
  length vars <> 1 ->
  forall w, visit (VariableDeclaration_ vars v) w
            = AssertionFailed "Tuples not supported yet.".
Proof.
  intros Hlen w. simpl.
  assert (Hb : (length vars =? 1)%nat = false) by now apply Nat.eqb_neq.
  rewrite Hb. reflexivity.
Qed.

Lemma tuple_declaration_rejected_witness :
  visit (VariableDeclaration_ [mkTypedName "a" "u64"; mkTypedName "b" "u256"] None)
    IndentedWriter_new
  = AssertionFailed "Tuples not supported yet.".
Proof.
  apply (tuple_declaration_rejected
           [mkTypedName "a" "u64"; mkTypedName "b" "u256"] None).
  simpl. lia.
Defined.

Lemma bind_Ok {A B} (m : Gen A) (k : A -> Gen B) w r :
  bind m k w = Ok r -> exists a w1, m w = Ok (a, w1) /\ k a w1 = Ok r.
Proof.
  unfold bind. destruct (m w) as [[a w1] | d | f]; try discriminate.
  intros H. now exists a, w1.
Qed.

Lemma convertType_Ok_supported type ty :
  convertType type = Ok ty -> In type supportedTypes.
Proof.
  unfold convertType. destruct (type =? ""); [discriminate |].
  destruct (set_count supportedTypes type =? 0)%nat eqn:E; [discriminate |].
  intros _. apply Nat.eqb_neq in E. now apply set_count_In.
Qed.

Lemma paramLoop_Ok args : forall w r, paramLoop args w = Ok r -> Forall supported args.
Proof.
  induction args as [| a rest IH]; intros w r H; [constructor |].
  simpl in H. unfold bind, lift in H.
  destruct (convertType (tn_type a)) as [ty | d | f] eqn:E; simpl in H;
    try discriminate.
  constructor; [exact (convertType_Ok_supported _ _ E) | eapply IH; exact H].
Qed.

Lemma returnLoop_Ok rets :
  forall name w r, returnLoop rets name w = Ok r -> Forall supported rets.
Proof.
  induction rets as [| a rest IH]; intros name w r H; [constructor |].
  simpl in H. unfold bind, lift in H.
  destruct (convertType (tn_type a)) as [ty | d | f] eqn:E; simpl in H;
    try discriminate.
  constructor; [exact (convertType_Ok_supported _ _ E) | eapply IH; exact H].
Qed.

(** X11.  A FunctionDefinition is lowered only if all its parameter types
    and return types are supported and it has at most one return binding:
    whenever its lowering succeeds, these hold. *)
Theorem functionDefinition_success_requires name args rets body w r :
  visit (FunctionDefinition_ name args rets body) w = Ok r ->
  Forall supported args /\ length rets <= 1 /\ Forall supported rets.
Proof.
  intros H. cbn -[paramLoop returnLoop visitStatements Nat.leb String.eqb] in H.
  repeat match type of H with
         | bind _ _ _ = Ok _ =>
             let E := fresh "E" in apply bind_Ok in H as (? & ? & E & H)
         end.
  match goal with
  | Ea : solAssert _ _ _ = Ok _ |- _ =>
      unfold solAssert in Ea;
      destruct (length rets <=? 1)%nat eqn:El; [| discriminate Ea]
  end.
  match goal with
  | Ep : paramLoop _ _ = Ok _, Er : returnLoop _ _ _ = Ok _ |- _ =>
      split; [exact (paramLoop_Ok _ _ _ Ep) |];
      split; [now apply Nat.leb_le | exact (returnLoop_Ok _ _ _ _ Er)]
  end.
Qed.

Lemma functionDefinition_success_requires_witness :
  Forall supported [mkTypedName "x" "u64"]
  /\ length [mkTypedName "r" "u64"] <= 1
  /\ Forall supported [mkTypedName "r" "u64"].
Proof.
  apply (functionDefinition_success_requires "f" [mkTypedName "x" "u64"]
           [mkTypedName "r" "u64"]
           (mkBlock [Assignment_ (mkIdentifier "r") (Some sample_x)])
           IndentedWriter_new
           (tt, skipn 2 (removelast (removelast sample_module_calls)))).
  reflexivity.
Defined.
